(** * GroupStore (src/stores/GroupStore.js): a shallow embedding

    The store caches four slices of one group (summary, rooms,
    members, invited members), re-reads them from the backend client
    through promise chains, and tells its listeners with an "update"
    event.  The embedding keeps the shape of the source:

    - JavaScript values are a small inductive type ([JsVal]); property
      reads on [undefined]/[null] throw, as in the language;
    - the store's fields are a record ([GroupStore]); [_ready] is a
      finite map from property names to values, the object's own
      properties; a read [this._ready[id]] that finds no own property
      goes on to what [{}] inherits from [Object.prototype]
      ([inherited]), as the language has it;
    - promises are an arena indexed by creation order; [then_] and
      [catch_] register reactions, a settled promise queues one job per
      reaction, and a job runs one callback of the source
      ([Handler] lists the closures the source passes);
    - what the store does to the outside (backend requests, events,
      listener calls, console output, the flair cache) is appended to a
      trace, oldest entry first;
    - the backend and the scheduler are the environment: [Respond]
      settles a backend promise, [Tick] runs the job at the head of the
      queue, [Invoke] is a call of a public method.  Inputs may come in
      any order, which covers the order of an event loop (all queued
      jobs before the next answer or call);
    - a listener is called and returns: a call is an entry of the
      trace, and what a listener does with the store is an [Invoke] of
      its own. *)

From stdpp Require Import base option list gmap strings fin_maps.
From Stdlib Require Import ZArith Lia.

#[local] Set Warnings "-register-all".
Local Open Scope string_scope.

(* ================================================================== *)
(** ** JavaScript values *)
(* ================================================================== *)

Inductive JsVal : Type :=
| JUndefined
| JNull
| JBool (b : bool)
| JNum (n : Z)
| JStr (s : string)
| JObj (fields : list (string * JsVal))
| JArr (items : list JsVal).

(** Result of evaluating a piece of code: a value or a thrown value. *)
Inductive Completion (A : Type) : Type :=
| Normal (a : A)
| Throw (e : JsVal).
Arguments Normal {A} a.
Arguments Throw {A} e.

(** What a [TypeError] looks like to the code that catches it: an
    object without an [httpStatus]. *)
Definition TypeError (msg : string) : JsVal :=
  JObj [("name", JStr "TypeError"); ("message", JStr msg)].

(** [new Error(msg)]. *)
Definition Error (msg : string) : JsVal :=
  JObj [("name", JStr "Error"); ("message", JStr msg)].

(** ToBoolean: the values that make [!v] true are [undefined], [null],
    [false], [0] and the empty string. *)
Definition truthy (v : JsVal) : bool :=
  match v with
  | JUndefined | JNull => false
  | JBool b => b
  | JNum n => negb (n =? 0)%Z
  | JStr s => negb (String.eqb s "")
  | JObj _ | JArr _ => true
  end.

(** Own-property lookup in an object literal: the first binding of the
    name. *)
Fixpoint assoc (k : string) (fs : list (string * JsVal)) : option JsVal :=
  match fs with
  | [] => None
  | (k', v) :: fs' => if String.eqb k k' then Some v else assoc k fs'
  end.

(** A function of the language, as code that only reads it sees it: an
    object, hence true as a condition and different from [undefined],
    with its [name] and its [length]. *)
Definition builtin (name : string) (arity : Z) : JsVal :=
  JObj [("name", JStr name); ("length", JNum arity)].

(** The methods of [Object.prototype], which every object written
    [{}] inherits. *)
Definition Object_prototype : list (string * JsVal) :=
  [("constructor", builtin "Object" 1);
   ("hasOwnProperty", builtin "hasOwnProperty" 1);
   ("isPrototypeOf", builtin "isPrototypeOf" 1);
   ("propertyIsEnumerable", builtin "propertyIsEnumerable" 1);
   ("toLocaleString", builtin "toLocaleString" 0);
   ("toString", builtin "toString" 0);
   ("valueOf", builtin "valueOf" 0);
   ("__defineGetter__", builtin "__defineGetter__" 2);
   ("__defineSetter__", builtin "__defineSetter__" 2);
   ("__lookupGetter__", builtin "__lookupGetter__" 1);
   ("__lookupSetter__", builtin "__lookupSetter__" 1)].

(** What a read of [name] on [{}] finds when the object has no own
    property of that name: a method of [Object.prototype], or for
    [__proto__] the prototype itself. *)
Definition inherited (name : string) : option JsVal :=
  if String.eqb name "__proto__" then Some (JObj Object_prototype)
  else assoc name Object_prototype.

(** [v.name] for the data properties the store reads ([chunk], [user],
    [is_publicised], [is_privileged], [httpStatus], [credentials],
    [userId]): a [TypeError] on [undefined] and [null], the bound value
    on an object that has the property, [undefined] otherwise. *)
Definition get_prop (v : JsVal) (name : string) : Completion JsVal :=
  match v with
  | JUndefined | JNull =>
      Throw (TypeError ("Cannot read property '" ++ name ++ "'"))
  | JObj fs => Normal (default JUndefined (assoc name fs))
  | _ => Normal JUndefined
  end.

(** [v === 403]. *)
Definition strict_eq_num (v : JsVal) (n : Z) : bool :=
  match v with
  | JNum m => (m =? n)%Z
  | _ => false
  end.

(** [xs.map(f)] where [f] may throw: the first throw aborts the map. *)
Fixpoint array_map (f : JsVal -> Completion JsVal) (xs : list JsVal)
  : Completion (list JsVal) :=
  match xs with
  | [] => Normal []
  | x :: xs' =>
      match f x with
      | Throw e => Throw e
      | Normal y =>
          match array_map f xs' with
          | Throw e => Throw e
          | Normal ys => Normal (y :: ys)
          end
      end
  end.

(** [v.chunk.map(f)]: [v.chunk] has to be an array, anything else has no
    callable [map]. *)
Definition chunk_map (f : JsVal -> Completion JsVal) (v : JsVal)
  : Completion (list JsVal) :=
  match get_prop v "chunk" with
  | Throw e => Throw e
  | Normal (JArr xs) => array_map f xs
  | Normal JUndefined | Normal JNull =>
      Throw (TypeError "Cannot read property 'map'")
  | Normal _ => Throw (TypeError "chunk.map is not a function")
  end.

(* ================================================================== *)
(** ** The store and its surroundings *)
(* ================================================================== *)

(** [GroupStore.STATE_KEY]. *)
Module STATE_KEY.
Definition GroupMembers : string := "GroupMembers".
Definition GroupInvitedMembers : string := "GroupInvitedMembers".
Definition Summary : string := "Summary".
Definition GroupRooms : string := "GroupRooms".
End STATE_KEY.

(** The four cached slices. *)
Inductive Slice : Type := SSummary | SRooms | SMembers | SInvited.

Definition state_key (k : Slice) : string :=
  match k with
  | SSummary => STATE_KEY.Summary
  | SRooms => STATE_KEY.GroupRooms
  | SMembers => STATE_KEY.GroupMembers
  | SInvited => STATE_KEY.GroupInvitedMembers
  end.

(** A listener is a function of the caller; only its identity matters
    to the store. *)
Abbreviation Callback := nat (only parsing).

(** The part of the matrix client the store reads as data. *)
Record MatrixClient : Type := { credentials : JsVal }.

Record GroupStore : Type := {
  groupId : JsVal;
  _matrixClient : MatrixClient;
  _summary : JsVal;
  _rooms : list JsVal;
  _members : list JsVal;
  _invitedMembers : list JsVal;
  _ready : gmap string JsVal;
  listeners : list Callback   (* the emitter's "update" listeners *)
}.

(** The requests the store sends to the backend client, named as the
    client's methods. *)
Module Client.
Inductive Request : Type :=
| getGroupUsers (gid : JsVal)
| getGroupInvitedUsers (gid : JsVal)
| getGroupSummary (gid : JsVal)
| getGroupRooms (gid : JsVal)
| addRoomToGroup (gid roomId isPublic : JsVal)
| updateGroupRoomVisibility (gid roomId isPublic : JsVal)
| removeRoomFromGroup (gid roomId : JsVal)
| inviteUserToGroup (gid userId : JsVal)
| acceptGroupInvite (gid : JsVal)
| addRoomToGroupSummary (gid roomId categoryId : JsVal)
| addUserToGroupSummary (gid userId roleId : JsVal)
| removeRoomFromGroupSummary (gid roomId : JsVal)
| removeUserFromGroupSummary (gid userId : JsVal)
| setGroupPublicity (gid isPublished : JsVal).
End Client.

Abbreviation PromiseId := nat (only parsing).

(** The closures the source hands to [then] and [catch]. *)
Inductive Handler : Type :=
| OnMembers          (* (result) => { this._members = ...        *)
| OnMembersFailed    (* (err) => { console.error(...); emit      *)
| OnInvited          (* (result) => { this._invitedMembers = ... *)
| OnInvitedFailed    (* (err) => { if (err.httpStatus === 403)   *)
| OnSummary          (* (resp) => { this._summary = resp; ...    *)
| OnSummaryFailed    (* (err) => { this.emit('error', err); }    *)
| OnRooms            (* (resp) => { this._rooms = ...            *)
| OnRoomsFailed      (* (err) => { this.emit('error', err); }    *)
| BoundFetchSummary  (* this._fetchSummary.bind(this)            *)
| BoundFetchRooms    (* this._fetchRooms.bind(this)              *)
| BoundFetchMembers  (* this._fetchMembers.bind(this)            *)
| InvalidateFlair.   (* () => { FlairStore.invalidate...(...) }  *)

#[global] Instance Handler_eq_dec : EqDecision Handler.
Proof. solve_decision. Defined.

#[global] Instance Slice_eq_dec : EqDecision Slice.
Proof. solve_decision. Defined.

Inductive Settled : Type :=
| Fulfilled (v : JsVal)
| Rejected (e : JsVal).

Record Reaction : Type := {
  onFulfilled : option Handler;
  onRejected : option Handler;
  derived : PromiseId
}.

Inductive PState : Type :=
| Pending (rs : list Reaction)
| Done (o : Settled).

Inductive Origin : Type :=
| FromBackend (r : Client.Request)
| FromThen.

Record Promise : Type := { origin : Origin; pstate : PState }.

Record Job : Type := { job_reaction : Reaction; job_arg : Settled }.

(** What the store does to the outside. *)
Inductive Action : Type :=
| BackendCall (r : Client.Request) (p : PromiseId)
| Emitted (event : string) (args : list JsVal)
| Notified (fn : Callback)
| ConsoleError (parts : list JsVal)
| FlairInvalidated (userId : JsVal).

Record World : Type := {
  store : GroupStore;
  promises : list Promise;
  jobs : list Job;
  trace : list Action
}.

(** *** Field updates *)

Definition set_summary (v : JsVal) (s : GroupStore) : GroupStore :=
  {| groupId := groupId s; _matrixClient := _matrixClient s;
     _summary := v; _rooms := _rooms s; _members := _members s;
     _invitedMembers := _invitedMembers s; _ready := _ready s;
     listeners := listeners s |}.

Definition set_rooms (v : list JsVal) (s : GroupStore) : GroupStore :=
  {| groupId := groupId s; _matrixClient := _matrixClient s;
     _summary := _summary s; _rooms := v; _members := _members s;
     _invitedMembers := _invitedMembers s; _ready := _ready s;
     listeners := listeners s |}.

Definition set_members (v : list JsVal) (s : GroupStore) : GroupStore :=
  {| groupId := groupId s; _matrixClient := _matrixClient s;
     _summary := _summary s; _rooms := _rooms s; _members := v;
     _invitedMembers := _invitedMembers s; _ready := _ready s;
     listeners := listeners s |}.

Definition set_invitedMembers (v : list JsVal) (s : GroupStore)
  : GroupStore :=
  {| groupId := groupId s; _matrixClient := _matrixClient s;
     _summary := _summary s; _rooms := _rooms s; _members := _members s;
     _invitedMembers := v; _ready := _ready s;
     listeners := listeners s |}.

(** [this._ready[key] = true]. *)
Definition set_ready (key : string) (s : GroupStore) : GroupStore :=
  {| groupId := groupId s; _matrixClient := _matrixClient s;
     _summary := _summary s; _rooms := _rooms s; _members := _members s;
     _invitedMembers := _invitedMembers s;
     _ready := <[key := JBool true]> (_ready s);
     listeners := listeners s |}.

Definition set_listeners (l : list Callback) (s : GroupStore)
  : GroupStore :=
  {| groupId := groupId s; _matrixClient := _matrixClient s;
     _summary := _summary s; _rooms := _rooms s; _members := _members s;
     _invitedMembers := _invitedMembers s; _ready := _ready s;
     listeners := l |}.

Definition with_store (f : GroupStore -> GroupStore) (w : World) : World :=
  {| store := f (store w); promises := promises w; jobs := jobs w;
     trace := trace w |}.

Definition with_promises (ps : list Promise) (w : World) : World :=
  {| store := store w; promises := ps; jobs := jobs w; trace := trace w |}.

Definition with_jobs (js : list Job) (w : World) : World :=
  {| store := store w; promises := promises w; jobs := js;
     trace := trace w |}.

Definition with_trace (t : list Action) (w : World) : World :=
  {| store := store w; promises := promises w; jobs := jobs w;
     trace := t |}.

(* ================================================================== *)
(** ** Construction and the read accessors *)
(* ================================================================== *)

Definition constructor (matrixClient : MatrixClient) (gid : JsVal)
  : Completion GroupStore :=
  if negb (truthy gid) then
    Throw (Error "GroupStore needs a valid groupId to be created")
  else
    Normal {| groupId := gid; _matrixClient := matrixClient;
              _summary := JObj []; _rooms := []; _members := [];
              _invitedMembers := []; _ready := ∅; listeners := [] |}.

(** The world right after [new GroupStore(...)]: no promise, no job,
    nothing done yet. *)
Definition new_world (s : GroupStore) : World :=
  {| store := s; promises := []; jobs := []; trace := [] |}.

(** [this._ready[id]]: the own property [id] of [_ready] when there is
    one, otherwise what [{}] inherits under that name, otherwise
    [undefined]. *)
Definition isStateReady (s : GroupStore) (id : string) : JsVal :=
  match _ready s !! id with
  | Some v => v
  | None => default JUndefined (inherited id)
  end.

Definition getSummary (s : GroupStore) : JsVal := _summary s.
Definition getGroupRooms (s : GroupStore) : JsVal := JArr (_rooms s).
Definition getGroupMembers (s : GroupStore) : JsVal := JArr (_members s).
Definition getGroupInvitedMembers (s : GroupStore) : JsVal :=
  JArr (_invitedMembers s).

(** [this._summary.user ? this._summary.user.<field> : null]. *)
Definition summary_user_field (field : string) (s : GroupStore)
  : Completion JsVal :=
  match get_prop (_summary s) "user" with
  | Throw e => Throw e
  | Normal u => if truthy u then get_prop u field else Normal JNull
  end.

Definition getGroupPublicity (s : GroupStore) : Completion JsVal :=
  summary_user_field "is_publicised" s.

Definition isUserPrivileged (s : GroupStore) : Completion JsVal :=
  summary_user_field "is_privileged" s.

(** The cached value of a slice, as its accessor returns it. *)
Definition cached (k : Slice) (s : GroupStore) : JsVal :=
  match k with
  | SSummary => getSummary s
  | SRooms => getGroupRooms s
  | SMembers => getGroupMembers s
  | SInvited => getGroupInvitedMembers s
  end.

(** The value a slice has before any fetch. *)
Definition initial (k : Slice) : JsVal :=
  match k with
  | SSummary => JObj []
  | _ => JArr []
  end.

(* ================================================================== *)
(** ** Code that reads and writes the world, and may throw *)
(* ================================================================== *)

Definition M (A : Type) : Type := World -> Completion A * World.

Definition ret {A : Type} (a : A) : M A := fun w => (Normal a, w).

Definition bind {A B : Type} (m : M A) (f : A -> M B) : M B :=
  fun w =>
    match m w with
    | (Normal a, w') => f a w'
    | (Throw e, w') => (Throw e, w')
    end.

Declare Scope js_scope.
Delimit Scope js_scope with js.
Notation "x <- m ;; k" := (bind m (fun x => k))
  (at level 100, m at next level, k at level 200, right associativity)
  : js_scope.
Notation "m ;; k" := (bind m (fun _ => k))
  (at level 100, k at level 200, right associativity) : js_scope.
Local Open Scope js_scope.

(** A pure evaluation that may throw. *)
Definition lift {A : Type} (c : Completion A) : M A := fun w => (c, w).

(** [this]. *)
Definition this : M GroupStore := fun w => (Normal (store w), w).

(** An assignment to a field of [this]. *)
Definition assign (f : GroupStore -> GroupStore) : M unit :=
  fun w => (Normal tt, with_store f w).

(** Something the outside sees. *)
Definition effects (acts : list Action) : M unit :=
  fun w => (Normal tt, with_trace (trace w ++ acts) w).

Definition effect (a : Action) : M unit := effects [a].

(** *** Promises *)

Definition new_promise (o : Origin) : M PromiseId :=
  fun w =>
    (Normal (length (promises w)),
     with_promises (promises w ++ [{| origin := o; pstate := Pending [] |}])
       w).

(** A call of a method of the matrix client: the request goes out and
    the client hands back a promise that the backend settles later. *)
Definition backend (r : Client.Request) : M PromiseId :=
  p <- new_promise (FromBackend r);;
  effect (BackendCall r p);;
  ret p.

(** A reaction on [p]: kept with [p] while it is pending, queued as a
    job when [p] is already settled. *)
Definition register (p : PromiseId) (r : Reaction) : M unit :=
  fun w =>
    match promises w !! p with
    | Some {| origin := o; pstate := Pending rs |} =>
        (Normal tt,
         with_promises
           (<[p := {| origin := o; pstate := Pending (rs ++ [r]) |}]>
              (promises w)) w)
    | Some {| origin := _; pstate := Done o |} =>
        (Normal tt,
         with_jobs (jobs w ++ [{| job_reaction := r; job_arg := o |}]) w)
    | None => (Normal tt, w)
    end.

(** [p.then(onFul, onRej)]: a new promise that the reaction settles. *)
Definition then2 (p : PromiseId) (onFul onRej : option Handler)
  : M PromiseId :=
  d <- new_promise FromThen;;
  register p {| onFulfilled := onFul; onRejected := onRej; derived := d |};;
  ret d.

Definition then_ (p : PromiseId) (h : Handler) : M PromiseId :=
  then2 p (Some h) None.

Definition catch_ (p : PromiseId) (h : Handler) : M PromiseId :=
  then2 p None (Some h).

(** Settling a pending promise queues one job per reaction, in
    registration order; a settled promise never changes. *)
Definition settle (d : PromiseId) (o : Settled) (w : World) : World :=
  match promises w !! d with
  | Some {| origin := og; pstate := Pending rs |} =>
      with_jobs
        (jobs w ++ map (fun r => {| job_reaction := r; job_arg := o |}) rs)
        (with_promises
           (<[d := {| origin := og; pstate := Done o |}]> (promises w)) w)
  | _ => w
  end.

(** *** The emitter *)

Definition console_error (parts : list JsVal) : M unit :=
  effect (ConsoleError parts).

(** [this.emit(event, ...args)].  The "update" listeners are the
    functions given to [registerListener], called in registration
    order; the "error" listener is the one the constructor installs,
    which writes to the console. *)
Definition emit (event : string) (args : list JsVal) : M unit :=
  effect (Emitted event args);;
  s <- this;;
  if String.eqb event "update" then
    effects (Notified <$> listeners s)
  else if String.eqb event "error" then
    console_error [JStr "GroupStore for "; groupId s;
                   JStr " encountered error"; hd JUndefined args]
  else ret tt.

(** Modelled from the spec: [FlairStore.invalidatePublicisedGroups],
    imported from './FlairStore', which is not part of the source at
    hand.  The spec has it as the invalidation of an external cache
    entry for one user id; the invalidation is shown in the trace and
    does not throw. *)
Module FlairStore.
Definition invalidatePublicisedGroups (userId : JsVal) : M unit :=
  effect (FlairInvalidated userId).
End FlairStore.

(** Modelled from the spec: the two projection functions imported from
    '../groups' ([groupMemberFromApiObject], [groupRoomFromApiObject]),
    which are not part of the source at hand.  The spec has them as
    external collaborators that turn one backend record into one
    [GroupMember] or [GroupRoom]; nothing else is assumed of them, and
    they may throw. *)
Class Groups : Type := {
  groupMemberFromApiObject : JsVal -> Completion JsVal;
  groupRoomFromApiObject : JsVal -> Completion JsVal
}.

Section Store.
Context {groups : Groups}.

Definition _notifyListeners : M unit := emit "update" [].

(** **** The callbacks of the fetches *)

Definition onMembers (result : JsVal) : M JsVal :=
  ms <- lift (chunk_map groupMemberFromApiObject result);;
  assign (set_members ms);;
  assign (set_ready STATE_KEY.GroupMembers);;
  _notifyListeners;;
  ret JUndefined.

Definition onMembersFailed (err : JsVal) : M JsVal :=
  console_error [JStr "Failed to get group member list: "; err];;
  emit "error" [err];;
  ret JUndefined.

Definition onInvited (result : JsVal) : M JsVal :=
  ms <- lift (chunk_map groupMemberFromApiObject result);;
  assign (set_invitedMembers ms);;
  assign (set_ready STATE_KEY.GroupInvitedMembers);;
  _notifyListeners;;
  ret JUndefined.

Definition onInvitedFailed (err : JsVal) : M JsVal :=
  status <- lift (get_prop err "httpStatus");;
  (* Invited users not visible to non-members *)
  if strict_eq_num status 403 then ret JUndefined
  else
    console_error [JStr "Failed to get group invited member list: "; err];;
    emit "error" [err];;
    ret JUndefined.

Definition onSummary (resp : JsVal) : M JsVal :=
  assign (set_summary resp);;
  assign (set_ready STATE_KEY.Summary);;
  _notifyListeners;;
  ret JUndefined.

Definition onSummaryFailed (err : JsVal) : M JsVal :=
  emit "error" [err];;
  ret JUndefined.

Definition onRooms (resp : JsVal) : M JsVal :=
  rs <- lift (chunk_map groupRoomFromApiObject resp);;
  assign (set_rooms rs);;
  assign (set_ready STATE_KEY.GroupRooms);;
  _notifyListeners;;
  ret JUndefined.

Definition onRoomsFailed (err : JsVal) : M JsVal :=
  emit "error" [err];;
  ret JUndefined.

(** **** The fetches.  None of them returns its promise. *)

Definition _fetchMembers : M JsVal :=
  s <- this;;
  p <- backend (Client.getGroupUsers (groupId s));;
  p1 <- then_ p OnMembers;;
  _ <- catch_ p1 OnMembersFailed;;
  q <- backend (Client.getGroupInvitedUsers (groupId s));;
  q1 <- then_ q OnInvited;;
  _ <- catch_ q1 OnInvitedFailed;;
  ret JUndefined.

Definition _fetchSummary : M JsVal :=
  s <- this;;
  p <- backend (Client.getGroupSummary (groupId s));;
  p1 <- then_ p OnSummary;;
  _ <- catch_ p1 OnSummaryFailed;;
  ret JUndefined.

Definition _fetchRooms : M JsVal :=
  s <- this;;
  p <- backend (Client.getGroupRooms (groupId s));;
  p1 <- then_ p OnRooms;;
  _ <- catch_ p1 OnRoomsFailed;;
  ret JUndefined.

(** [() => { FlairStore.invalidatePublicisedGroups(
             this._matrixClient.credentials.userId); }] *)
Definition invalidateFlair : M JsVal :=
  s <- this;;
  userId <- lift (get_prop (credentials (_matrixClient s)) "userId");;
  FlairStore.invalidatePublicisedGroups userId;;
  ret JUndefined.

(** What a callback does when a job calls it with the value or the
    reason of the settled promise. *)
Definition handle (h : Handler) (arg : JsVal) : M JsVal :=
  match h with
  | OnMembers => onMembers arg
  | OnMembersFailed => onMembersFailed arg
  | OnInvited => onInvited arg
  | OnInvitedFailed => onInvitedFailed arg
  | OnSummary => onSummary arg
  | OnSummaryFailed => onSummaryFailed arg
  | OnRooms => onRooms arg
  | OnRoomsFailed => onRoomsFailed arg
  | BoundFetchSummary => _fetchSummary
  | BoundFetchRooms => _fetchRooms
  | BoundFetchMembers => _fetchMembers
  | InvalidateFlair => invalidateFlair
  end.

(** **** The public methods *)

Definition registerListener (fn : Callback) : M JsVal :=
  assign (fun s => set_listeners (listeners s ++ [fn]) s);;
  (* Call to set initial state (before fetching starts) *)
  emit "update" [];;
  _fetchSummary;;
  _fetchRooms;;
  _fetchMembers;;
  ret JUndefined.

(** [removeListener] of the emitter takes out the most recently added
    instance of the function, if there is one. *)
Fixpoint remove_first (fn : Callback) (l : list Callback)
  : list Callback :=
  match l with
  | [] => []
  | x :: l' => if Nat.eqb x fn then l' else x :: remove_first fn l'
  end.

Definition remove_last (fn : Callback) (l : list Callback)
  : list Callback :=
  rev (remove_first fn (rev l)).

Definition unregisterListener (fn : Callback) : M JsVal :=
  assign (fun s => set_listeners (remove_last fn (listeners s)) s);;
  ret JUndefined.

Definition addRoomToGroup (roomId isPublic : JsVal) : M PromiseId :=
  s <- this;;
  p <- backend (Client.addRoomToGroup (groupId s) roomId isPublic);;
  then_ p BoundFetchRooms.

Definition updateGroupRoomVisibility (roomId isPublic : JsVal)
  : M PromiseId :=
  s <- this;;
  p <- backend
         (Client.updateGroupRoomVisibility (groupId s) roomId isPublic);;
  then_ p BoundFetchRooms.

Definition removeRoomFromGroup (roomId : JsVal) : M PromiseId :=
  s <- this;;
  p <- backend (Client.removeRoomFromGroup (groupId s) roomId);;
  (* Room might be in the summary, refresh just in case *)
  p1 <- then_ p BoundFetchSummary;;
  then_ p1 BoundFetchRooms.

Definition inviteUserToGroup (userId : JsVal) : M PromiseId :=
  s <- this;;
  p <- backend (Client.inviteUserToGroup (groupId s) userId);;
  then_ p BoundFetchMembers.

Definition acceptGroupInvite : M PromiseId :=
  s <- this;;
  p <- backend (Client.acceptGroupInvite (groupId s));;
  (* The user might be able to see more rooms now *)
  p1 <- then_ p BoundFetchRooms;;
  (* The user should now appear as a member *)
  then_ p1 BoundFetchMembers.

Definition addRoomToGroupSummary (roomId categoryId : JsVal)
  : M PromiseId :=
  s <- this;;
  p <- backend (Client.addRoomToGroupSummary (groupId s) roomId categoryId);;
  then_ p BoundFetchSummary.

Definition addUserToGroupSummary (userId roleId : JsVal) : M PromiseId :=
  s <- this;;
  p <- backend (Client.addUserToGroupSummary (groupId s) userId roleId);;
  then_ p BoundFetchSummary.

Definition removeRoomFromGroupSummary (roomId : JsVal) : M PromiseId :=
  s <- this;;
  p <- backend (Client.removeRoomFromGroupSummary (groupId s) roomId);;
  then_ p BoundFetchSummary.

Definition removeUserFromGroupSummary (userId : JsVal) : M PromiseId :=
  s <- this;;
  p <- backend (Client.removeUserFromGroupSummary (groupId s) userId);;
  then_ p BoundFetchSummary.

Definition setGroupPublicity (isPublished : JsVal) : M PromiseId :=
  s <- this;;
  p <- backend (Client.setGroupPublicity (groupId s) isPublished);;
  p1 <- then_ p InvalidateFlair;;
  then_ p1 BoundFetchSummary.

(** **** The machine *)

Definition reaction_handler (r : Reaction) (o : Settled)
  : option Handler :=
  match o with
  | Fulfilled _ => onFulfilled r
  | Rejected _ => onRejected r
  end.

Definition settled_value (o : Settled) : JsVal :=
  match o with
  | Fulfilled v => v
  | Rejected e => e
  end.

(** One job: without a callback for the outcome, the outcome passes
    to the derived promise; with one, the callback runs and the
    derived promise is fulfilled with what it returns or rejected
    with what it throws. *)
Definition run_job (j : Job) (w : World) : World :=
  let r := job_reaction j in
  match reaction_handler r (job_arg j) with
  | None => settle (derived r) (job_arg j) w
  | Some h =>
      match handle h (settled_value (job_arg j)) w with
      | (Normal v, w') => settle (derived r) (Fulfilled v) w'
      | (Throw e, w') => settle (derived r) (Rejected e) w'
      end
  end.

(** The backend settles a promise it handed out, once. *)
Definition respond (p : PromiseId) (o : Settled) (w : World) : World :=
  match promises w !! p with
  | Some {| origin := FromBackend _; pstate := Pending _ |} =>
      settle p o w
  | _ => w
  end.

Definition tick (w : World) : World :=
  match jobs w with
  | [] => w
  | j :: js => run_job j (with_jobs js w)
  end.

(** The calls a user of the store can make that change something. *)
Inductive Method : Type :=
| RegisterListener (fn : Callback)
| UnregisterListener (fn : Callback)
| AddRoomToGroup (roomId isPublic : JsVal)
| UpdateGroupRoomVisibility (roomId isPublic : JsVal)
| RemoveRoomFromGroup (roomId : JsVal)
| InviteUserToGroup (userId : JsVal)
| AcceptGroupInvite
| AddRoomToGroupSummary (roomId categoryId : JsVal)
| AddUserToGroupSummary (userId roleId : JsVal)
| RemoveRoomFromGroupSummary (roomId : JsVal)
| RemoveUserFromGroupSummary (userId : JsVal)
| SetGroupPublicity (isPublished : JsVal).

(** The mutation behind a method; the two listener methods are not
    mutations. *)
Definition mutation (m : Method) : option (M PromiseId) :=
  match m with
  | RegisterListener _ | UnregisterListener _ => None
  | AddRoomToGroup r b => Some (addRoomToGroup r b)
  | UpdateGroupRoomVisibility r b => Some (updateGroupRoomVisibility r b)
  | RemoveRoomFromGroup r => Some (removeRoomFromGroup r)
  | InviteUserToGroup u => Some (inviteUserToGroup u)
  | AcceptGroupInvite => Some acceptGroupInvite
  | AddRoomToGroupSummary r c => Some (addRoomToGroupSummary r c)
  | AddUserToGroupSummary u r => Some (addUserToGroupSummary u r)
  | RemoveRoomFromGroupSummary r => Some (removeRoomFromGroupSummary r)
  | RemoveUserFromGroupSummary u => Some (removeUserFromGroupSummary u)
  | SetGroupPublicity b => Some (setGroupPublicity b)
  end.

Definition invoke (m : Method) (w : World) : World :=
  match m with
  | RegisterListener fn => snd (registerListener fn w)
  | UnregisterListener fn => snd (unregisterListener fn w)
  | _ =>
      match mutation m with
      | Some op => snd (op w)
      | None => w
      end
  end.

Inductive Input : Type :=
| Invoke (m : Method)
| Respond (p : PromiseId) (o : Settled)
| Tick.

Definition step (i : Input) (w : World) : World :=
  match i with
  | Invoke m => invoke m w
  | Respond p o => respond p o w
  | Tick => tick w
  end.

Fixpoint run (inputs : list Input) (w : World) : World :=
  match inputs with
  | [] => w
  | i :: rest => run rest (step i w)
  end.

(** **** Fetches, seen from outside *)

Definition fetch_request (k : Slice) (gid : JsVal) : Client.Request :=
  match k with
  | SSummary => Client.getGroupSummary gid
  | SRooms => Client.getGroupRooms gid
  | SMembers => Client.getGroupUsers gid
  | SInvited => Client.getGroupInvitedUsers gid
  end.

Definition on_success (k : Slice) : Handler :=
  match k with
  | SSummary => OnSummary
  | SRooms => OnRooms
  | SMembers => OnMembers
  | SInvited => OnInvited
  end.

Definition on_failure (k : Slice) : Handler :=
  match k with
  | SSummary => OnSummaryFailed
  | SRooms => OnRoomsFailed
  | SMembers => OnMembersFailed
  | SInvited => OnInvitedFailed
  end.

(** The value a slice is to take for a backend response: the summary
    verbatim, the others as the array of the projected records of
    [chunk].  A response that cannot be projected is no value. *)
Definition project (k : Slice) (resp : JsVal) : Completion JsVal :=
  match k with
  | SSummary => Normal resp
  | SRooms =>
      match chunk_map groupRoomFromApiObject resp with
      | Normal l => Normal (JArr l)
      | Throw e => Throw e
      end
  | SMembers | SInvited =>
      match chunk_map groupMemberFromApiObject resp with
      | Normal l => Normal (JArr l)
      | Throw e => Throw e
      end
  end.

(** The function that projects one record of the response for slice
    [k]; the summary has no records. *)
Definition projection (k : Slice) : JsVal -> Completion JsVal :=
  match k with
  | SSummary => Normal
  | SRooms => groupRoomFromApiObject
  | SMembers | SInvited => groupMemberFromApiObject
  end.

(** The value with which a fetch of slice [k] completes at the step
    [i] taken from [w], if one does: the job at the head of the queue
    calls the success callback of [k] with a response that
    projects. *)
Definition completes (k : Slice) (i : Input) (w : World)
  : option JsVal :=
  match i, jobs w with
  | Tick, j :: _ =>
      if decide (reaction_handler (job_reaction j) (job_arg j)
                 = Some (on_success k))
      then match project k (settled_value (job_arg j)) with
           | Normal v => Some v
           | Throw _ => None
           end
      else None
  | _, _ => None
  end.

(** The value of the latest fetch of [k] that completed along a run
    from [w]; [acc] is the one before the run. *)
Fixpoint last_fetched (k : Slice) (inputs : list Input) (w : World)
    (acc : option JsVal) : option JsVal :=
  match inputs with
  | [] => acc
  | i :: rest =>
      last_fetched k rest (step i w)
        (match completes k i w with
         | Some v => Some v
         | None => acc
         end)
  end.

End Store.

(** The state of a promise, [None] for an id that is not in use. *)
Definition promise_state (w : World) (p : PromiseId) : option PState :=
  pstate <$> promises w !! p.

(* ================================================================== *)
(** ** Notions used by the proofs *)
(* ================================================================== *)

Local Open Scope list_scope.

(** [m] takes every world to a world that [R] relates to it. *)
Definition preserved (R : World -> World -> Prop) {A : Type} (m : M A)
  : Prop :=
  forall w, R w (snd (m w)).

(** The store is the same. *)
Definition same_store (w w' : World) : Prop := store w' = store w.


(** [A'] has every promise of [A], with the same origin and, where it
    was settled, the same outcome. *)
Definition arena_le (A A' : list Promise) : Prop :=
  forall p pr, A !! p = Some pr ->
    exists pr', A' !! p = Some pr' /\ origin pr' = origin pr
                /\ (forall o, pstate pr = Done o -> pstate pr' = Done o).

Definition origin_at (A : list Promise) (p : nat) (og : Origin) : Prop :=
  exists st, A !! p = Some {| origin := og; pstate := st |}.

(** A reaction as the store registers them: it settles a promise made
    by [then], a success callback of a fetch is never its rejection
    callback, and is its fulfilment callback only on the backend
    promise of a request for that slice. *)
Definition good_reaction (A : list Promise) (og : Origin) (r : Reaction)
  : Prop :=
  origin_at A (derived r) FromThen
  /\ (forall k, onRejected r <> Some (on_success k))
  /\ (forall k, onFulfilled r = Some (on_success k) ->
                exists gid, og = FromBackend (fetch_request k gid)).

(** A job as the store queues them: it settles a promise made by
    [then], and when it calls the success callback of a fetch, it
    calls it with the value some backend promise of a request for that
    slice was fulfilled with. *)
Definition good_job (A : list Promise) (j : Job) : Prop :=
  origin_at A (derived (job_reaction j)) FromThen
  /\ (forall k,
        reaction_handler (job_reaction j) (job_arg j) = Some (on_success k) ->
        exists p gid resp,
          job_arg j = Fulfilled resp
          /\ A !! p = Some {| origin := FromBackend (fetch_request k gid);
                              pstate := Done (Fulfilled resp) |}).

Definition well_formed (A : list Promise) (J : list Job) : Prop :=
  (forall p og rs,
      A !! p = Some {| origin := og; pstate := Pending rs |} ->
      Forall (good_reaction A og) rs)
  /\ Forall (good_job A) J.

(** [m], run where [P] holds of the arena and the queue, returns where
    [Q] holds, and leaves them well formed when it throws. *)
Definition triple {X : Type} (P : list Promise -> list Job -> Prop)
    (m : M X) (Q : X -> list Promise -> list Job -> Prop) : Prop :=
  forall w, P (promises w) (jobs w) ->
    match m w with
    | (Normal a, w') => Q a (promises w') (jobs w')
    | (Throw _, w') => well_formed (promises w') (jobs w')
    end.

(** Code of the store, which settles nothing, keeps every promise with
    its origin, pending when it was pending and with its outcome when
    it was settled. *)
Definition keeps_promises (w w' : World) : Prop :=
  forall p og st,
    promises w !! p = Some {| origin := og; pstate := st |} ->
    exists st',
      promises w' !! p = Some {| origin := og; pstate := st' |}
      /\ match st with
         | Pending _ => exists rs', st' = Pending rs'
         | Done o => st' = Done o
         end.

(** A world whose arena is [ps ++ l]: [ps] is whatever was there, [l]
    the promises the code at hand has made; the [k]-th of them has the
    id [length ps + k]. *)
Definition mk_world (s : GroupStore) (ps l : list Promise)
    (js : list Job) (t : list Action) : World :=
  {| store := s; promises := ps ++ l; jobs := js; trace := t |}.

Definition fresh (o : Origin) : Promise :=
  {| origin := o; pstate := Pending [] |}.

Section StoreAfter.
Context {groups : Groups}.

(** The store after a callback has run, as a function of the store
    before. *)
Definition store_after (h : Handler) (arg : JsVal) (s : GroupStore)
  : GroupStore :=
  match h with
  | OnSummary => set_ready STATE_KEY.Summary (set_summary arg s)
  | OnRooms =>
      match chunk_map groupRoomFromApiObject arg with
      | Normal rs => set_ready STATE_KEY.GroupRooms (set_rooms rs s)
      | Throw _ => s
      end
  | OnMembers =>
      match chunk_map groupMemberFromApiObject arg with
      | Normal ms => set_ready STATE_KEY.GroupMembers (set_members ms s)
      | Throw _ => s
      end
  | OnInvited =>
      match chunk_map groupMemberFromApiObject arg with
      | Normal ms =>
          set_ready STATE_KEY.GroupInvitedMembers (set_invitedMembers ms s)
      | Throw _ => s
      end
  | _ => s
  end.

End StoreAfter.

(* ================================================================== *)
(** ** Fetches and mutations as scenarios *)
(* ================================================================== *)

Section Scenarios.
Context {groups : Groups}.

(** The fetch that reads slice [k]; [_fetchMembers] reads the members
    and the invited members. *)
Definition fetch (k : Slice) : M JsVal :=
  match k with
  | SSummary => _fetchSummary
  | SRooms => _fetchRooms
  | SMembers | SInvited => _fetchMembers
  end.

(** Among the promises [fetch k] makes, the position of the backend
    promise for slice [k]. *)
Definition fetch_offset (k : Slice) : nat :=
  match k with
  | SInvited => 3
  | _ => 0
  end.

(** What the failure callback of slice [k] shows to the outside when
    it reports the failure [err]. *)
Definition failure_report (k : Slice) (s : GroupStore) (err : JsVal)
  : list Action :=
  match k with
  | SMembers =>
      [ConsoleError [JStr "Failed to get group member list: "; err]]
  | SInvited =>
      [ConsoleError [JStr "Failed to get group invited member list: "; err]]
  | _ => []
  end
  ++ [Emitted "error" [err];
      ConsoleError [JStr "GroupStore for "; groupId s;
                    JStr " encountered error"; err]].


(** The number of times [event] is emitted in a trace. *)
Definition is_emitted (event : string) (a : Action) : bool :=
  match a with
  | Emitted ev _ => String.eqb ev event
  | _ => false
  end.

Definition count_emitted (event : string) (t : list Action) : nat :=
  length (filter (fun a => is_emitted event a = true) t).

(** The backend requests in a trace, in order. *)
Definition requests (t : list Action) : list Client.Request :=
  omap (fun a => match a with
                 | BackendCall r _ => Some r
                 | _ => None
                 end) t.

(** The number of [then] steps on the chain of a mutation; the promise
    the mutation returns is that many promises after its backend
    promise. *)
Definition chain_length (m : Method) : nat :=
  match m with
  | RemoveRoomFromGroup _ | AcceptGroupInvite | SetGroupPublicity _ => 2
  | _ => 1
  end.


(** The request a mutation sends to the backend, for the group [gid]. *)
Definition mutation_request (m : Method) (gid : JsVal)
  : option Client.Request :=
  match m with
  | RegisterListener _ | UnregisterListener _ => None
  | AddRoomToGroup r b => Some (Client.addRoomToGroup gid r b)
  | UpdateGroupRoomVisibility r b =>
      Some (Client.updateGroupRoomVisibility gid r b)
  | RemoveRoomFromGroup r => Some (Client.removeRoomFromGroup gid r)
  | InviteUserToGroup u => Some (Client.inviteUserToGroup gid u)
  | AcceptGroupInvite => Some (Client.acceptGroupInvite gid)
  | AddRoomToGroupSummary r c => Some (Client.addRoomToGroupSummary gid r c)
  | AddUserToGroupSummary u r => Some (Client.addUserToGroupSummary gid u r)
  | RemoveRoomFromGroupSummary r =>
      Some (Client.removeRoomFromGroupSummary gid r)
  | RemoveUserFromGroupSummary u =>
      Some (Client.removeUserFromGroupSummary gid u)
  | SetGroupPublicity b => Some (Client.setGroupPublicity gid b)
  end.

(** The requests of the refresh steps of a mutation, in the order of
    its chain. *)
Definition refresh_requests (m : Method) (gid : JsVal)
  : list Client.Request :=
  match m with
  | RegisterListener _ | UnregisterListener _ => []
  | AddRoomToGroup _ _ | UpdateGroupRoomVisibility _ _ =>
      [Client.getGroupRooms gid]
  | RemoveRoomFromGroup _ =>
      [Client.getGroupSummary gid; Client.getGroupRooms gid]
  | InviteUserToGroup _ =>
      [Client.getGroupUsers gid; Client.getGroupInvitedUsers gid]
  | AcceptGroupInvite =>
      [Client.getGroupRooms gid; Client.getGroupUsers gid;
       Client.getGroupInvitedUsers gid]
  | AddRoomToGroupSummary _ _ | AddUserToGroupSummary _ _
  | RemoveRoomFromGroupSummary _ | RemoveUserFromGroupSummary _
  | SetGroupPublicity _ =>
      [Client.getGroupSummary gid]
  end.

(** The group a request is about: the first argument of every method
    of the client that the store calls. *)
Definition request_gid (r : Client.Request) : JsVal :=
  match r with
  | Client.getGroupUsers g | Client.getGroupInvitedUsers g
  | Client.getGroupSummary g | Client.getGroupRooms g
  | Client.addRoomToGroup g _ _ | Client.updateGroupRoomVisibility g _ _
  | Client.removeRoomFromGroup g _ | Client.inviteUserToGroup g _
  | Client.acceptGroupInvite g | Client.addRoomToGroupSummary g _ _
  | Client.addUserToGroupSummary g _ _
  | Client.removeRoomFromGroupSummary g _
  | Client.removeUserFromGroupSummary g _ | Client.setGroupPublicity g _ =>
      g
  end.

(** The number of promises [fetch k] makes. *)
Definition fetch_size (k : Slice) : nat :=
  match k with
  | SSummary | SRooms => 3
  | SMembers | SInvited => 6
  end.

(** The requests [fetch k] sends, in order. *)
Definition fetch_requests (k : Slice) (gid : JsVal)
  : list Client.Request :=
  match k with
  | SSummary => [Client.getGroupSummary gid]
  | SRooms => [Client.getGroupRooms gid]
  | SMembers | SInvited =>
      [Client.getGroupUsers gid; Client.getGroupInvitedUsers gid]
  end.

(** Every backend request among the actions [acts] is about the group
    [g]. *)
Definition calls_for (g : JsVal) (acts : list Action) : Prop :=
  Forall (fun a => match a with
                   | BackendCall r _ => request_gid r = g
                   | _ => True
                   end) acts.

(** Among the promises [registerListener] makes, the position of the
    backend promise for slice [k]. *)
Definition initial_offset (k : Slice) : nat :=
  match k with
  | SSummary => 0
  | SRooms => 3
  | SMembers => 6
  | SInvited => 9
  end.

(** The number of reasons for an "update" at the step [i] taken from
    [w]: one for a registration of a listener, one for a fetch that
    completes. *)
Definition updates_at (i : Input) (w : World) : nat :=
  match i with
  | Invoke (RegisterListener _) => 1
  | _ =>
      length (omap (fun k => completes k i w)
                [SSummary; SRooms; SMembers; SInvited])
  end.

Fixpoint updates_along (inputs : list Input) (w : World) : nat :=
  match inputs with
  | [] => 0
  | i :: rest => updates_at i w + updates_along rest (step i w)
  end.

(** The four requests of [registerListener], in order. *)
Definition initial_requests (gid : JsVal) : list Client.Request :=
  [Client.getGroupSummary gid; Client.getGroupRooms gid;
   Client.getGroupUsers gid; Client.getGroupInvitedUsers gid].

End Scenarios.

(* ================================================================== *)
(** ** Concrete data for the examples *)
(* ================================================================== *)

(** A projection in the style of the spec's description: the user
    identifier of a member record. *)
Definition example_member (api : JsVal) : Completion JsVal :=
  match get_prop api "user_id" with
  | Normal u => Normal (JObj [("userId", u)])
  | Throw e => Throw e
  end.

(** The room identifier of a room record. *)
Definition example_room (api : JsVal) : Completion JsVal :=
  match get_prop api "room_id" with
  | Normal r => Normal (JObj [("roomId", r)])
  | Throw e => Throw e
  end.

Definition example_groups : Groups :=
  {| groupMemberFromApiObject := example_member;
     groupRoomFromApiObject := example_room |}.

Definition example_client : MatrixClient :=
  {| credentials := JObj [("userId", JStr "@me:example.org")] |}.

Definition example_store : GroupStore :=
  {| groupId := JStr "+test:example.org"; _matrixClient := example_client;
     _summary := JObj []; _rooms := []; _members := [];
     _invitedMembers := []; _ready := ∅; listeners := [] |}.

Definition example_world : World := new_world example_store.

(** A failure of the backend that carries a status. *)
Definition http_error (status : Z) : JsVal :=
  JObj [("httpStatus", JNum status)].

Definition example_room_id : JsVal := JStr "!room:example.org".

(** A rooms response with one room, and what it projects to. *)
Definition example_rooms_response : JsVal :=
  JObj [("chunk", JArr [JObj [("room_id", example_room_id)]])].

Definition example_rooms : JsVal :=
  JArr [JObj [("roomId", example_room_id)]].

(** A summary whose [user] has the privilege flag and no publicity
    flag. *)
Definition example_summary : JsVal :=
  JObj [("user", JObj [("is_privileged", JBool true)])].

(** A store on a client without credentials. *)
Definition example_anonymous_world : World :=
  new_world
    {| groupId := JStr "+test:example.org";
       _matrixClient := {| credentials := JUndefined |};
       _summary := JObj []; _rooms := []; _members := [];
       _invitedMembers := []; _ready := ∅; listeners := [] |}.


(** A world with the listeners 1, 2 and 1 again. *)
Definition example_listening_world : World :=
  with_store (set_listeners [1; 2; 1]%nat) example_world.

(** The example store after a listener has been registered and the
    summary request has been answered with [example_summary]. *)
Definition example_loaded_world : World :=
  run (groups := example_groups)
    [Invoke (RegisterListener 0); Respond 0 (Fulfilled example_summary);
     Tick]
    example_world.

(* ================================================================== *)
(** ** What a piece of code leaves alone *)
(* ================================================================== *)

Section Preserved.
Variable R : World -> World -> Prop.
Hypothesis R_refl : forall w, R w w.
Hypothesis R_trans : forall a b c, R a b -> R b c -> R a c.

Lemma preserved_ret {A : Type} (a : A) : preserved R (ret a).
Proof. intros w. apply R_refl. Qed.

Lemma preserved_lift {A : Type} (c : Completion A) : preserved R (lift c).
Proof. intros w. apply R_refl. Qed.

Lemma preserved_this : preserved R this.
Proof. intros w. apply R_refl. Qed.

Lemma preserved_bind {A B : Type} (m : M A) (f : A -> M B) :
  preserved R m -> (forall a, preserved R (f a)) -> preserved R (bind m f).
Proof.
  intros Hm Hf w. unfold bind.
  specialize (Hm w). destruct (m w) as [[a|e] w']; simpl in *.
  - eapply R_trans; [exact Hm | apply Hf].
  - exact Hm.
Qed.

Lemma preserved_if {A : Type} (b : bool) (m1 m2 : M A) :
  preserved R m1 -> preserved R m2 -> preserved R (if b then m1 else m2).
Proof. destruct b; auto. Qed.
End Preserved.

(** Splits a sequence of statements into its statements. *)
Ltac preserved_steps refl trans :=
  repeat first
    [ apply (preserved_ret _ refl)
    | apply (preserved_lift _ refl)
    | apply (preserved_this _ refl)
    | apply (preserved_bind _ trans); [ | intros ? ]
    | apply preserved_if ].

(* ------------------------------------------------------------------ *)
(** *** The store *)

Lemma same_store_refl w : same_store w w.
Proof. reflexivity. Qed.

Lemma same_store_trans a b c :
  same_store a b -> same_store b c -> same_store a c.
Proof. unfold same_store. congruence. Qed.

Ltac keeps_store :=
  preserved_steps same_store_refl same_store_trans.

Lemma effects_store acts : preserved same_store (effects acts).
Proof. intros w. reflexivity. Qed.

Lemma new_promise_store o : preserved same_store (new_promise o).
Proof. intros w. reflexivity. Qed.

Lemma register_store p r : preserved same_store (register p r).
Proof.
  intros w. unfold register.
  destruct (promises w !! p) as [[o [rs|s]]|]; reflexivity.
Qed.

Lemma backend_store r : preserved same_store (backend r).
Proof.
  unfold backend. keeps_store.
Qed.

Lemma then2_store p f g : preserved same_store (then2 p f g).
Proof.
  unfold then2. keeps_store. apply register_store.
Qed.

Lemma emit_store ev args : preserved same_store (emit ev args).
Proof.
  unfold emit, console_error, effect. keeps_store.
Qed.

Lemma settle_store d o w : store (settle d o w) = store w.
Proof.
  unfold settle. destruct (promises w !! d) as [[og [rs|s]]|]; reflexivity.
Qed.

Lemma respond_store p o w : store (respond p o w) = store w.
Proof.
  unfold respond.
  destruct (promises w !! p) as [[[r|] [rs|s]]|];
    auto using settle_store.
Qed.

Section StoreEffects.
Context {groups : Groups}.

Lemma fetchSummary_store : preserved same_store _fetchSummary.
Proof.
  unfold _fetchSummary, then_, catch_. keeps_store;
    apply register_store.
Qed.

Lemma fetchRooms_store : preserved same_store _fetchRooms.
Proof.
  unfold _fetchRooms, then_, catch_. keeps_store;
    apply register_store.
Qed.

Lemma fetchMembers_store : preserved same_store _fetchMembers.
Proof.
  unfold _fetchMembers, then_, catch_. keeps_store;
    apply register_store.
Qed.

Lemma invalidateFlair_store : preserved same_store invalidateFlair.
Proof.
  unfold invalidateFlair, effect. keeps_store.
Qed.

Lemma mutation_store m op :
  mutation m = Some op -> preserved same_store op.
Proof.
  destruct m; simpl; intros [= <-];
    unfold addRoomToGroup, updateGroupRoomVisibility, removeRoomFromGroup,
      inviteUserToGroup, acceptGroupInvite, addRoomToGroupSummary,
      addUserToGroupSummary, removeRoomFromGroupSummary,
      removeUserFromGroupSummary, setGroupPublicity, then_;
    keeps_store; apply register_store.
Qed.

Lemma onFailed_store k err : preserved same_store (handle (on_failure k) err).
Proof.
  destruct k; simpl;
    unfold onSummaryFailed, onRoomsFailed, onMembersFailed, onInvitedFailed,
      emit, console_error, effect;
    keeps_store.
Qed.

Lemma handle_store h arg w :
  store (snd (handle h arg w)) = store_after h arg (store w).
Proof.
  destruct h; cbn [handle store_after].
  - unfold onMembers, bind, lift.
    destruct (chunk_map groupMemberFromApiObject arg); reflexivity.
  - exact (onFailed_store SMembers arg w).
  - unfold onInvited, bind, lift.
    destruct (chunk_map groupMemberFromApiObject arg); reflexivity.
  - exact (onFailed_store SInvited arg w).
  - reflexivity.
  - reflexivity.
  - unfold onRooms, bind, lift.
    destruct (chunk_map groupRoomFromApiObject arg); reflexivity.
  - reflexivity.
  - exact (fetchSummary_store w).
  - exact (fetchRooms_store w).
  - exact (fetchMembers_store w).
  - exact (invalidateFlair_store w).
Qed.

Lemma run_job_store j w :
  store (run_job j w)
  = match reaction_handler (job_reaction j) (job_arg j) with
    | Some h => store_after h (settled_value (job_arg j)) (store w)
    | None => store w
    end.
Proof.
  unfold run_job.
  destruct (reaction_handler (job_reaction j) (job_arg j)) as [h|].
  - pose proof (handle_store h (settled_value (job_arg j)) w) as H.
    destruct (handle h (settled_value (job_arg j)) w) as [[v|e] w'];
      simpl in H; rewrite settle_store; exact H.
  - apply settle_store.
Qed.

End StoreEffects.

Section Steps.
Context {groups : Groups}.

Lemma registerListener_store fn w :
  store (snd (registerListener fn w))
  = set_listeners (listeners (store w) ++ [fn]) (store w).
Proof.
  set (rest := (emit "update" [];; _fetchSummary;; _fetchRooms;;
                _fetchMembers;; ret JUndefined) : M JsVal).
  assert (Hrest : preserved same_store rest).
  { unfold rest. keeps_store; apply register_store. }
  change (store
            (snd (rest (with_store
                          (fun s => set_listeners (listeners s ++ [fn]) s)
                          w))) = set_listeners (listeners (store w) ++ [fn])
                                   (store w)).
  rewrite (Hrest _). reflexivity.
Qed.

(** A call of a public method changes no cache and no readiness
    flag. *)
Lemma invoke_store m w :
  (forall k, cached k (store (invoke m w)) = cached k (store w))
  /\ _ready (store (invoke m w)) = _ready (store w).
Proof.
  assert (Hmut : forall op, mutation m = Some op ->
                   store (snd (op w)) = store w).
  { intros op Hop. apply (mutation_store m op Hop). }
  destruct m; simpl;
    try (rewrite registerListener_store; split; [intros []|]; reflexivity);
    try (split; [intros []|]; reflexivity);
    rewrite (Hmut _ eq_refl); auto.
Qed.

Lemma tick_store w :
  store (tick w)
  = match jobs w with
    | [] => store w
    | j :: _ =>
        match reaction_handler (job_reaction j) (job_arg j) with
        | Some h => store_after h (settled_value (job_arg j)) (store w)
        | None => store w
        end
    end.
Proof.
  unfold tick. destruct (jobs w) as [|j js]; [reflexivity|].
  rewrite run_job_store. reflexivity.
Qed.

(** One step changes the cache of [k] exactly when a fetch of [k]
    completes at that step, and then to the fetched value. *)
Lemma step_cached k i w :
  cached k (store (step i w))
  = default (cached k (store w)) (completes k i w).
Proof.
  destruct i as [m|p o|]; simpl.
  - apply invoke_store.
  - rewrite respond_store. reflexivity.
  - rewrite tick_store. unfold completes.
    destruct (jobs w) as [|j js]; simpl; [reflexivity|].
    destruct (reaction_handler (job_reaction j) (job_arg j)) as [h|];
      [|case_decide; [discriminate|reflexivity]].
    generalize (settled_value (job_arg j)). intros resp.
    destruct h, k; case_decide; simpl in *;
      try discriminate; try congruence; try reflexivity;
      try (destruct (chunk_map groupMemberFromApiObject resp));
      try (destruct (chunk_map groupRoomFromApiObject resp));
      reflexivity.
Qed.

(** One step either leaves the readiness flags alone, and then no
    fetch completes at it, or a fetch of exactly one slice completes
    and the flag of that slice is set. *)
Lemma step_ready_cases i w :
  (_ready (store (step i w)) = _ready (store w)
   /\ forall k, completes k i w = None)
  \/ (exists k v,
        completes k i w = Some v
        /\ (forall k', k' <> k -> completes k' i w = None)
        /\ _ready (store (step i w))
           = <[state_key k := JBool true]> (_ready (store w))).
Proof.
  destruct i as [m|p o|]; simpl.
  - left. split; [apply invoke_store | reflexivity].
  - left. rewrite respond_store. split; reflexivity.
  - rewrite tick_store. unfold completes.
    destruct (jobs w) as [|j js]; simpl; [left; split; reflexivity|].
    destruct (reaction_handler (job_reaction j) (job_arg j)) as [h|];
      [|left; split; [reflexivity|];
        intros k; case_decide; [discriminate|reflexivity]].
    generalize (settled_value (job_arg j)). intros resp.
    destruct h;
      try (left; split; [reflexivity|];
           intros []; case_decide; simpl in *; congruence).
    + cbn [store_after].
      destruct (chunk_map groupMemberFromApiObject resp) as [l|e] eqn:E.
      * right. exists SMembers, (JArr l). simpl. rewrite E.
        split; [try case_decide; congruence|]. split; [|reflexivity].
        intros k' Hk'. destruct k'; try congruence; reflexivity.
      * left. split; [reflexivity|].
        intros []; case_decide; simpl in *; try congruence;
          rewrite E; reflexivity.
    + cbn [store_after].
      destruct (chunk_map groupMemberFromApiObject resp) as [l|e] eqn:E.
      * right. exists SInvited, (JArr l). simpl. rewrite E.
        split; [try case_decide; congruence|]. split; [|reflexivity].
        intros k' Hk'. destruct k'; try congruence; reflexivity.
      * left. split; [reflexivity|].
        intros []; case_decide; simpl in *; try congruence;
          rewrite E; reflexivity.
    + right. exists SSummary, resp. simpl.
      split; [try case_decide; congruence|]. split; [|reflexivity].
      intros k' Hk'. destruct k'; try congruence; reflexivity.
    + cbn [store_after].
      destruct (chunk_map groupRoomFromApiObject resp) as [l|e] eqn:E.
      * right. exists SRooms, (JArr l). simpl. rewrite E.
        split; [try case_decide; congruence|]. split; [|reflexivity].
        intros k' Hk'. destruct k'; try congruence; reflexivity.
      * left. split; [reflexivity|].
        intros []; case_decide; simpl in *; try congruence;
          rewrite E; reflexivity.
Qed.

Lemma state_key_inj k k' : state_key k = state_key k' -> k = k'.
Proof. destruct k, k'; simpl; intros H; congruence || discriminate H. Qed.

(** The flag of [k] after one step. *)
Lemma step_ready k i w :
  _ready (store (step i w)) !! state_key k
  = match completes k i w with
    | Some _ => Some (JBool true)
    | None => _ready (store w) !! state_key k
    end.
Proof.
  destruct (step_ready_cases i w) as [[Heq Hnone]|(k0 & v & Hc & Hnc & Heq)];
    rewrite Heq.
  - rewrite Hnone. reflexivity.
  - destruct (decide (k = k0)) as [->|Hne].
    + rewrite Hc. apply lookup_insert_eq.
    + rewrite (Hnc k Hne). apply lookup_insert_ne.
      intros H. apply Hne. symmetry. apply state_key_inj. exact H.
Qed.

(** Keys other than the four state keys are never written. *)
Lemma step_ready_other key i w :
  (forall k, key <> state_key k) ->
  _ready (store (step i w)) !! key = _ready (store w) !! key.
Proof.
  intros Hkey.
  destruct (step_ready_cases i w) as [[Heq _]|(k0 & v & _ & _ & Heq)];
    rewrite Heq; [reflexivity|].
  apply lookup_insert_ne. intros H. apply (Hkey k0). symmetry. exact H.
Qed.

(** No step takes a flag back. *)
Lemma step_ready_mono key i w :
  _ready (store w) !! key = Some (JBool true) ->
  _ready (store (step i w)) !! key = Some (JBool true).
Proof.
  intros Hset.
  destruct (step_ready_cases i w) as [[Heq _]|(k0 & v & _ & _ & Heq)];
    rewrite Heq; [exact Hset|].
  rewrite lookup_insert. case_decide; [reflexivity | exact Hset].
Qed.

(** *** Runs *)

Lemma run_app l1 l2 w : run (l1 ++ l2) w = run l2 (run l1 w).
Proof. revert w. induction l1 as [|i l1 IH]; intros w; simpl; auto. Qed.

Lemma last_fetched_acc k inputs w acc :
  last_fetched k inputs w acc
  = match last_fetched k inputs w None with
    | Some v => Some v
    | None => acc
    end.
Proof.
  revert w acc. induction inputs as [|i rest IH]; intros w acc; simpl.
  - reflexivity.
  - rewrite IH. rewrite (IH _ (match completes k i w with
                               | Some v => Some v | None => None end)).
    destruct (last_fetched k rest (step i w) None); [reflexivity|].
    destruct (completes k i w); reflexivity.
Qed.

(** The cache of [k] after a run is the value of the latest fetch of
    [k] that completed in it, and the cache before the run when there
    is none. *)
Lemma run_cached k inputs w :
  cached k (store (run inputs w))
  = default (cached k (store w)) (last_fetched k inputs w None).
Proof.
  revert w. induction inputs as [|i rest IH]; intros w; simpl.
  - reflexivity.
  - rewrite IH.
    rewrite (last_fetched_acc k rest (step i w)
               (match completes k i w with
                | Some v => Some v | None => None end)).
    rewrite step_cached.
    destruct (last_fetched k rest (step i w) None); [reflexivity|].
    destruct (completes k i w); reflexivity.
Qed.

Lemma run_ready k inputs w :
  _ready (store (run inputs w)) !! state_key k
  = match last_fetched k inputs w None with
    | Some _ => Some (JBool true)
    | None => _ready (store w) !! state_key k
    end.
Proof.
  revert w. induction inputs as [|i rest IH]; intros w; simpl.
  - reflexivity.
  - rewrite IH.
    rewrite (last_fetched_acc k rest (step i w)
               (match completes k i w with
                | Some v => Some v | None => None end)).
    rewrite step_ready.
    destruct (last_fetched k rest (step i w) None); [reflexivity|].
    destruct (completes k i w); reflexivity.
Qed.

Lemma run_ready_other key inputs w :
  (forall k, key <> state_key k) ->
  _ready (store (run inputs w)) !! key = _ready (store w) !! key.
Proof.
  intros Hkey. revert w.
  induction inputs as [|i rest IH]; intros w; simpl; [reflexivity|].
  rewrite IH. apply step_ready_other. exact Hkey.
Qed.

Lemma run_ready_mono key inputs w :
  _ready (store w) !! key = Some (JBool true) ->
  _ready (store (run inputs w)) !! key = Some (JBool true).
Proof.
  revert w. induction inputs as [|i rest IH]; intros w H; simpl; [exact H|].
  apply IH. apply step_ready_mono. exact H.
Qed.

End Steps.

(* ================================================================== *)
(** ** Evaluating the promise primitives *)
(* ================================================================== *)

Lemma lookup_arena (ps l : list Promise) k :
  (ps ++ l) !! (length ps + k) = l !! k.
Proof.
  rewrite lookup_app_r by lia. f_equal. lia.
Qed.

Lemma eval_backend r s ps l js t :
  backend r (mk_world s ps l js t)
  = (Normal (length ps + length l),
     mk_world s ps (l ++ [fresh (FromBackend r)]) js
       (t ++ [BackendCall r (length ps + length l)])).
Proof.
  unfold backend, bind, new_promise, effect, effects, ret, mk_world,
    with_promises, with_trace; simpl.
  rewrite length_app, app_assoc. reflexivity.
Qed.

Lemma eval_then2 k f g s ps l js t :
  then2 (length ps + k) f g (mk_world s ps l js t)
  = let r := {| onFulfilled := f; onRejected := g;
                derived := length ps + length l |} in
    (Normal (length ps + length l),
     match (l ++ [fresh FromThen]) !! k with
     | Some {| origin := o; pstate := Pending rs |} =>
         mk_world s ps
           (<[k := {| origin := o; pstate := Pending (rs ++ [r]) |}]>
              (l ++ [fresh FromThen])) js t
     | Some {| origin := _; pstate := Done o |} =>
         mk_world s ps (l ++ [fresh FromThen])
           (js ++ [{| job_reaction := r; job_arg := o |}]) t
     | None => mk_world s ps (l ++ [fresh FromThen]) js t
     end).
Proof.
  unfold then2, bind, new_promise, register, ret, mk_world, fresh,
    with_promises, with_jobs; simpl.
  rewrite length_app, <- app_assoc, lookup_arena.
  destruct ((l ++ [_]) !! k) as [[o [rs|d]]|]; simpl;
    rewrite ?insert_app_r; reflexivity.
Qed.

Lemma eval_settle k o s ps l js t :
  settle (length ps + k) o (mk_world s ps l js t)
  = match l !! k with
    | Some {| origin := og; pstate := Pending rs |} =>
        mk_world s ps (<[k := {| origin := og; pstate := Done o |}]> l)
          (js ++ map (fun r => {| job_reaction := r; job_arg := o |}) rs) t
    | _ => mk_world s ps l js t
    end.
Proof.
  unfold settle, mk_world, with_promises, with_jobs; simpl.
  rewrite lookup_arena.
  destruct (l !! k) as [[og [rs|d]]|]; simpl;
    rewrite ?insert_app_r; reflexivity.
Qed.

Lemma eval_respond k o s ps l js t :
  respond (length ps + k) o (mk_world s ps l js t)
  = match l !! k with
    | Some {| origin := FromBackend r; pstate := Pending rs |} =>
        mk_world s ps
          (<[k := {| origin := FromBackend r; pstate := Done o |}]> l)
          (js ++ map (fun r => {| job_reaction := r; job_arg := o |}) rs) t
    | _ => mk_world s ps l js t
    end.
Proof.
  unfold respond. simpl promises. rewrite lookup_arena.
  destruct (l !! k) as [[[r|] [rs|d]]|] eqn:E; try reflexivity.
  rewrite eval_settle, E. reflexivity.
Qed.

Lemma world_eta w :
  w = mk_world (store w) (promises w) [] (jobs w) (trace w).
Proof. destruct w; unfold mk_world; simpl. rewrite app_nil_r. reflexivity. Qed.

Lemma eval_effects acts s ps l js t :
  effects acts (mk_world s ps l js t)
  = (Normal tt, mk_world s ps l js (t ++ acts)).
Proof. reflexivity. Qed.

Lemma eval_this s ps l js t :
  this (mk_world s ps l js t) = (Normal s, mk_world s ps l js t).
Proof. reflexivity. Qed.

Lemma eval_assign f s ps l js t :
  assign f (mk_world s ps l js t) = (Normal tt, mk_world (f s) ps l js t).
Proof. reflexivity. Qed.

Lemma eval_tick {groups : Groups} s ps l j js t :
  tick (mk_world s ps l (j :: js) t) = run_job j (mk_world s ps l js t).
Proof. reflexivity. Qed.

Lemma eval_tick_idle {groups : Groups} s ps l t :
  tick (mk_world s ps l [] t) = mk_world s ps l [] t.
Proof. reflexivity. Qed.

Lemma store_mk s ps l js t : store (mk_world s ps l js t) = s.
Proof. reflexivity. Qed.

Lemma jobs_mk s ps l js t : jobs (mk_world s ps l js t) = js.
Proof. reflexivity. Qed.

Lemma trace_mk s ps l js t : trace (mk_world s ps l js t) = t.
Proof. reflexivity. Qed.

Lemma promises_mk s ps l js t : promises (mk_world s ps l js t) = ps ++ l.
Proof. reflexivity. Qed.

Lemma with_trace_mk t' s ps l js t :
  with_trace t' (mk_world s ps l js t) = mk_world s ps l js t'.
Proof. reflexivity. Qed.

Lemma with_store_mk f s ps l js t :
  with_store f (mk_world s ps l js t) = mk_world (f s) ps l js t.
Proof. reflexivity. Qed.

Lemma promise_state_mk s ps l js t k :
  promise_state (mk_world s ps l js t) (length ps + k) = pstate <$> l !! k.
Proof.
  unfold promise_state. rewrite promises_mk, lookup_arena. reflexivity.
Qed.

Lemma eval_then2_0 f g s ps l js t :
  then2 (length ps) f g (mk_world s ps l js t)
  = then2 (length ps + 0) f g (mk_world s ps l js t).
Proof. rewrite Nat.add_0_r. reflexivity. Qed.

Lemma eval_respond_0 o s ps l js t :
  respond (length ps) o (mk_world s ps l js t)
  = respond (length ps + 0) o (mk_world s ps l js t).
Proof. rewrite Nat.add_0_r. reflexivity. Qed.

Lemma eval_settle_0 o s ps l js t :
  settle (length ps) o (mk_world s ps l js t)
  = settle (length ps + 0) o (mk_world s ps l js t).
Proof. rewrite Nat.add_0_r. reflexivity. Qed.

Lemma promise_state_mk_0 s ps l js t :
  promise_state (mk_world s ps l js t) (length ps)
  = promise_state (mk_world s ps l js t) (length ps + 0).
Proof. rewrite Nat.add_0_r. reflexivity. Qed.

#[local] Arguments backend : simpl never.
#[local] Arguments then2 : simpl never.
#[local] Arguments settle : simpl never.
#[local] Arguments respond : simpl never.
#[local] Arguments tick : simpl never.
#[local] Arguments mk_world : simpl never.
#[local] Arguments promise_state : simpl never.

(** Runs straight-line code of the store on a world in [mk_world]
    form. *)
Ltac js_eval :=
  repeat (progress
    (cbn;
     unfold bind, then_, catch_, lift, ret, effect, console_error, run_job;
     rewrite ?eval_then2_0, ?eval_respond_0, ?eval_settle_0,
       ?promise_state_mk_0;
     rewrite ?eval_this, ?eval_assign, ?eval_effects, ?eval_backend,
       ?eval_then2, ?eval_settle, ?eval_respond, ?eval_tick,
       ?eval_tick_idle, ?store_mk, ?jobs_mk, ?trace_mk, ?with_trace_mk,
       ?with_store_mk, ?promise_state_mk;
     rewrite ?Nat.add_0_r)).

(** Replaces the term [e] by what it evaluates to; [tac] is run between
    the rounds of evaluation. *)
Ltac js_compute e tac :=
  let H := fresh "E" in
  eassert (H : e = _);
  [ repeat (progress (tac; js_eval)); rewrite <- ?app_assoc; cbn [app];
    reflexivity
  | rewrite H; clear H ].

(** Puts a world without queued jobs in [mk_world] form. *)
Ltac quiescent w Hq :=
  let s := fresh "s" in
  let ps := fresh "ps" in
  let js := fresh "js" in
  let t := fresh "t" in
  destruct w as [s ps js t]; cbn [jobs promises store trace] in *;
  subst js;
  rewrite (world_eta (Build_World s ps [] t));
  cbn [jobs promises store trace].

(* ------------------------------------------------------------------ *)
(** *** Settled promises stay as they are *)









Section Stable.
Context {groups : Groups}.










End Stable.

(* ================================================================== *)
(** ** Where the success callbacks get their argument from *)
(* ================================================================== *)

Lemma arena_le_refl A : arena_le A A.
Proof. intros p pr H. exists pr. auto. Qed.

Lemma arena_le_trans A B C : arena_le A B -> arena_le B C -> arena_le A C.
Proof.
  intros H1 H2 p pr H.
  destruct (H1 p pr H) as (pr1 & E1 & O1 & D1).
  destruct (H2 p pr1 E1) as (pr2 & E2 & O2 & D2).
  exists pr2. split; [exact E2|]. split; [congruence|].
  intros o Ho. apply D2, D1, Ho.
Qed.

Lemma arena_le_app A l : arena_le A (A ++ l).
Proof.
  intros p pr H. exists pr.
  rewrite lookup_app_l by (eapply lookup_lt_Some; eauto). auto.
Qed.

(** Replacing a pending promise by one of the same origin. *)
Lemma arena_le_insert A p og rs st :
  A !! p = Some {| origin := og; pstate := Pending rs |} ->
  arena_le A (<[p := {| origin := og; pstate := st |}]> A).
Proof.
  intros Hp q pr Hq. destruct (decide (p = q)) as [->|Hne].
  - rewrite Hp in Hq. injection Hq as <-.
    exists {| origin := og; pstate := st |}.
    rewrite list_lookup_insert_eq by (eapply lookup_lt_Some; eauto).
    split; [reflexivity|]. split; [reflexivity|]. simpl. discriminate.
  - exists pr. rewrite list_lookup_insert_ne by exact Hne. auto.
Qed.

Lemma origin_at_mono A A' p og :
  arena_le A A' -> origin_at A p og -> origin_at A' p og.
Proof.
  intros Hle [st H]. destruct (Hle p _ H) as ([og' st'] & E & O & _).
  simpl in O. subst og'. exists st'. exact E.
Qed.

Lemma good_reaction_mono A A' og r :
  arena_le A A' -> good_reaction A og r -> good_reaction A' og r.
Proof.
  intros Hle (H1 & H2 & H3). split; [|split]; auto.
  eapply origin_at_mono; eauto.
Qed.

Lemma good_job_mono A A' j :
  arena_le A A' -> good_job A j -> good_job A' j.
Proof.
  intros Hle (H1 & H2). split; [eapply origin_at_mono; eauto|].
  intros k Hk. destruct (H2 k Hk) as (p & gid & resp & Harg & Hp).
  destruct (Hle p _ Hp) as ([og' st'] & E & O & D). simpl in O, D.
  exists p, gid, resp. split; [exact Harg|].
  rewrite E, O, (D _ eq_refl). reflexivity.
Qed.

(** A good reaction, once its promise is settled, is a good job. *)
Lemma good_reaction_job A p og o r :
  A !! p = Some {| origin := og; pstate := Done o |} ->
  good_reaction A og r ->
  good_job A {| job_reaction := r; job_arg := o |}.
Proof.
  intros Hp (H1 & H2 & H3). split; [exact H1|].
  simpl. intros k Hk. destruct o as [resp|e]; simpl in Hk.
  - destruct (H3 k Hk) as [gid ->]. exists p, gid, resp. auto.
  - destruct (H2 k Hk).
Qed.

Lemma well_formed_new_promise A J o :
  well_formed A J ->
  well_formed (A ++ [{| origin := o; pstate := Pending [] |}]) J.
Proof.
  intros [HA HJ]. split.
  - intros p og rs Hp.
    destruct (decide (p < length A)) as [Hlt|Hge].
    + rewrite lookup_app_l in Hp by exact Hlt.
      eapply Forall_impl; [apply (HA p og rs Hp)|].
      intros r. apply good_reaction_mono, arena_le_app.
    + rewrite lookup_app_r in Hp by lia.
      destruct (p - length A) as [|n]; simpl in Hp; [|discriminate].
      injection Hp as <- <-. constructor.
  - eapply Forall_impl; [exact HJ|].
    intros j. apply good_job_mono, arena_le_app.
Qed.

Lemma well_formed_register A J p og rs r :
  well_formed A J ->
  A !! p = Some {| origin := og; pstate := Pending rs |} ->
  good_reaction A og r ->
  well_formed (<[p := {| origin := og; pstate := Pending (rs ++ [r]) |}]> A)
    J.
Proof.
  intros [HA HJ] Hp Hr.
  pose proof (arena_le_insert A p og rs (Pending (rs ++ [r])) Hp) as Hle.
  split.
  - intros q og' rs' Hq. destruct (decide (p = q)) as [->|Hne].
    + rewrite list_lookup_insert_eq in Hq by (eapply lookup_lt_Some; eauto).
      injection Hq as <- <-. apply Forall_app. split.
      * eapply Forall_impl; [apply (HA q og rs Hp)|].
        intros r'. apply good_reaction_mono, Hle.
      * constructor; [|constructor].
        eapply good_reaction_mono; eauto.
    + rewrite list_lookup_insert_ne in Hq by exact Hne.
      eapply Forall_impl; [apply (HA q og' rs' Hq)|].
      intros r'. apply good_reaction_mono, Hle.
  - eapply Forall_impl; [exact HJ|]. intros j. apply good_job_mono, Hle.
Qed.

Lemma well_formed_settle d o w :
  well_formed (promises w) (jobs w) ->
  well_formed (promises (settle d o w)) (jobs (settle d o w)).
Proof.
  intros [HA HJ]. unfold settle.
  destruct (promises w !! d) as [[og [rs|s]]|] eqn:Hd; simpl;
    try (split; assumption).
  pose proof (arena_le_insert _ d og rs (Done o) Hd) as Hle.
  assert (Hd' : <[d := {| origin := og; pstate := Done o |}]> (promises w)
                !! d = Some {| origin := og; pstate := Done o |}).
  { apply list_lookup_insert_eq. eapply lookup_lt_Some; eauto. }
  split.
  - intros q og' rs' Hq. destruct (decide (d = q)) as [->|Hne].
    + rewrite Hd' in Hq. discriminate.
    + rewrite list_lookup_insert_ne in Hq by exact Hne.
      eapply Forall_impl; [apply (HA q og' rs' Hq)|].
      intros r'. apply good_reaction_mono, Hle.
  - apply Forall_app. split.
    + eapply Forall_impl; [exact HJ|]. intros j. apply good_job_mono, Hle.
    + apply Forall_fmap. eapply Forall_impl; [apply (HA d og rs Hd)|].
      intros r Hr. simpl. eapply good_reaction_job; [exact Hd'|].
      eapply good_reaction_mono; eauto.
Qed.

Lemma well_formed_respond p o w :
  well_formed (promises w) (jobs w) ->
  well_formed (promises (respond p o w)) (jobs (respond p o w)).
Proof.
  intros H. unfold respond.
  destruct (promises w !! p) as [[[r|] [rs|s]]|]; try exact H.
  apply well_formed_settle, H.
Qed.

(** *** Rules for sequences of statements *)

Lemma triple_ret {X : Type} (P : list Promise -> list Job -> Prop) (a : X) :
  triple P (ret a) (fun _ => P).
Proof. intros w H. exact H. Qed.

Lemma triple_this (P : list Promise -> list Job -> Prop) :
  triple P this (fun _ => P).
Proof. intros w H. exact H. Qed.

Lemma triple_assign (P : list Promise -> list Job -> Prop) f :
  triple P (assign f) (fun _ => P).
Proof. intros w H. exact H. Qed.

Lemma triple_effects (P : list Promise -> list Job -> Prop) acts :
  triple P (effects acts) (fun _ => P).
Proof. intros w H. exact H. Qed.

Lemma triple_lift {X : Type} (c : Completion X) :
  triple well_formed (lift c) (fun _ => well_formed).
Proof. intros w H. unfold lift. destruct c; exact H. Qed.

Lemma triple_bind {X Y : Type} P (m : M X) Q (f : X -> M Y) R :
  triple P m Q -> (forall a, triple (Q a) (f a) R) -> triple P (bind m f) R.
Proof.
  intros Hm Hf w HP. unfold bind. specialize (Hm w HP).
  destruct (m w) as [[a|e] w']; [apply (Hf a w' Hm)|exact Hm].
Qed.

Lemma triple_pre {X : Type} (P P' : list Promise -> list Job -> Prop)
    (m : M X) Q :
  (forall A J, P A J -> P' A J) -> triple P' m Q -> triple P m Q.
Proof. intros HP Hm w H. apply Hm, HP, H. Qed.

Lemma triple_if {X : Type} P (b : bool) (m1 m2 : M X) Q :
  triple P m1 Q -> triple P m2 Q -> triple P (if b then m1 else m2) Q.
Proof. destruct b; auto. Qed.

(** The promise of a backend call has the request as its origin. *)
Lemma triple_backend r :
  triple well_formed (backend r)
    (fun p A J => well_formed A J /\ origin_at A p (FromBackend r)).
Proof.
  intros w H. unfold backend, bind, new_promise, effect, effects, ret.
  simpl. split; [apply well_formed_new_promise, H|].
  exists (Pending []). apply list_lookup_middle. reflexivity.
Qed.

(** [then2] keeps the arena and the queue well formed when a success
    callback is passed only for fulfilment and only on the backend
    promise of a fetch of its slice. *)
Lemma triple_then2 p f g :
  (forall k, g <> Some (on_success k)) ->
  triple
    (fun A J =>
       well_formed A J
       /\ forall k, f = Some (on_success k) ->
                    exists gid,
                      origin_at A p (FromBackend (fetch_request k gid)))
    (then2 p f g)
    (fun _ => well_formed).
Proof.
  intros Hg w [Hwf Hf].
  unfold then2, bind, new_promise, ret. simpl.
  set (A1 := promises w ++ [{| origin := FromThen; pstate := Pending [] |}]).
  set (r := {| onFulfilled := f; onRejected := g;
               derived := length (promises w) |}).
  assert (Hwf1 : well_formed A1 (jobs w))
    by (apply well_formed_new_promise, Hwf).
  assert (Hle : arena_le (promises w) A1) by apply arena_le_app.
  assert (Hr : forall og st,
             A1 !! p = Some {| origin := og; pstate := st |} ->
             good_reaction A1 og r).
  { intros og st Hp. split; [|split].
    - exists (Pending []). apply list_lookup_middle. reflexivity.
    - exact Hg.
    - simpl. intros k Hk. destruct (Hf k Hk) as [gid Ho].
      destruct (origin_at_mono _ _ _ _ Hle Ho) as [st' Hp'].
      rewrite Hp in Hp'. injection Hp' as -> _. eauto. }
  unfold register. simpl. fold A1.
  destruct (A1 !! p) as [[og [rs|o]]|] eqn:Hp; simpl.
  - apply well_formed_register; eauto.
  - destruct Hwf1 as [HA HJ]. split; [exact HA|].
    apply Forall_app. split; [exact HJ|]. constructor; [|constructor].
    eapply good_reaction_job; eauto.
  - exact Hwf1.
Qed.

Lemma triple_then2_plain p f g :
  (forall k, f <> Some (on_success k)) ->
  (forall k, g <> Some (on_success k)) ->
  triple well_formed (then2 p f g) (fun _ => well_formed).
Proof.
  intros Hf Hg. eapply triple_pre; [|apply (triple_then2 p f g Hg)].
  intros A J H. split; [exact H|]. intros k Hk. destruct (Hf k Hk).
Qed.

Lemma triple_then_success k gid p :
  triple
    (fun A J => well_formed A J
                /\ origin_at A p (FromBackend (fetch_request k gid)))
    (then_ p (on_success k))
    (fun _ => well_formed).
Proof.
  eapply triple_pre; [|apply triple_then2; discriminate].
  intros A J [H Ho]. split; [exact H|].
  intros k' Hk'. exists gid.
  assert (k' = k) as ->; [|exact Ho].
  destruct k, k'; simpl in Hk'; congruence.
Qed.

Lemma not_success_failure k k' : Some (on_failure k) <> Some (on_success k').
Proof. destruct k, k'; discriminate. Qed.

Lemma triple_backend_plain r :
  triple well_formed (backend r) (fun _ => well_formed).
Proof. intros w H. apply (triple_backend r w H). Qed.

Lemma triple_emit ev args :
  triple well_formed (emit ev args) (fun _ => well_formed).
Proof.
  unfold emit, console_error, effect.
  eapply triple_bind; [apply triple_effects|intros ?].
  eapply triple_bind; [apply triple_this|intros s].
  repeat apply triple_if;
    first [apply triple_effects | apply triple_ret].
Qed.

Ltac not_success := intros []; discriminate.

(** Takes a sequence of statements apart, statement by statement. *)
Ltac wf_steps :=
  repeat first
    [ apply triple_ret
    | apply triple_this
    | apply triple_assign
    | apply triple_effects
    | apply triple_lift
    | apply triple_emit
    | apply triple_backend_plain
    | apply triple_then2_plain; not_success
    | apply triple_if
    | eapply triple_bind; [ | intros ? ] ].

Section WellFormed.
Context {groups : Groups}.

Lemma fetchSummary_wf :
  triple well_formed _fetchSummary (fun _ => well_formed).
Proof.
  unfold _fetchSummary.
  eapply triple_bind; [apply triple_this|intros s].
  eapply triple_bind; [apply triple_backend|intros p].
  eapply triple_bind; [apply (triple_then_success SSummary)|intros p1].
  unfold catch_. wf_steps.
Qed.

Lemma fetchRooms_wf :
  triple well_formed _fetchRooms (fun _ => well_formed).
Proof.
  unfold _fetchRooms.
  eapply triple_bind; [apply triple_this|intros s].
  eapply triple_bind; [apply triple_backend|intros p].
  eapply triple_bind; [apply (triple_then_success SRooms)|intros p1].
  unfold catch_. wf_steps.
Qed.

Lemma fetchMembers_wf :
  triple well_formed _fetchMembers (fun _ => well_formed).
Proof.
  unfold _fetchMembers.
  eapply triple_bind; [apply triple_this|intros s].
  eapply triple_bind; [apply triple_backend|intros p].
  eapply triple_bind; [apply (triple_then_success SMembers)|intros p1].
  eapply triple_bind;
    [unfold catch_; apply triple_then2_plain; not_success|intros ?].
  eapply triple_bind; [apply triple_backend|intros q].
  eapply triple_bind; [apply (triple_then_success SInvited)|intros q1].
  unfold catch_. wf_steps.
Qed.

Lemma handle_wf h arg :
  triple well_formed (handle h arg) (fun _ => well_formed).
Proof.
  destruct h; cbn [handle];
    try apply fetchSummary_wf; try apply fetchRooms_wf;
    try apply fetchMembers_wf;
    unfold onMembers, onMembersFailed, onInvited, onInvitedFailed,
      onSummary, onSummaryFailed, onRooms, onRoomsFailed, invalidateFlair,
      _notifyListeners, console_error, effect,
      FlairStore.invalidatePublicisedGroups;
    wf_steps.
Qed.

Lemma mutation_wf m op :
  mutation m = Some op -> triple well_formed op (fun _ => well_formed).
Proof.
  destruct m; simpl; intros [= <-];
    unfold addRoomToGroup, updateGroupRoomVisibility, removeRoomFromGroup,
      inviteUserToGroup, acceptGroupInvite, addRoomToGroupSummary,
      addUserToGroupSummary, removeRoomFromGroupSummary,
      removeUserFromGroupSummary, setGroupPublicity, then_;
    wf_steps.
Qed.

Lemma registerListener_wf fn :
  triple well_formed (registerListener fn) (fun _ => well_formed).
Proof.
  unfold registerListener.
  eapply triple_bind; [apply triple_assign|intros ?].
  eapply triple_bind; [apply triple_emit|intros ?].
  eapply triple_bind; [apply fetchSummary_wf|intros ?].
  eapply triple_bind; [apply fetchRooms_wf|intros ?].
  eapply triple_bind; [apply fetchMembers_wf|intros ?].
  apply triple_ret.
Qed.

Lemma triple_snd {X : Type} (m : M X) w :
  triple well_formed m (fun _ => well_formed) ->
  well_formed (promises w) (jobs w) ->
  well_formed (promises (snd (m w))) (jobs (snd (m w))).
Proof.
  intros Hm H. specialize (Hm w H). destruct (m w) as [[a|e] w']; exact Hm.
Qed.

Lemma invoke_wf m w :
  well_formed (promises w) (jobs w) ->
  well_formed (promises (invoke m w)) (jobs (invoke m w)).
Proof.
  intros H. pose proof (mutation_wf m) as Hm.
  destruct m; simpl;
    try (apply triple_snd; [apply registerListener_wf|exact H]);
    try exact H;
    (apply triple_snd; [apply (Hm _ eq_refl)|exact H]).
Qed.

Lemma tick_wf w :
  well_formed (promises w) (jobs w) ->
  well_formed (promises (tick w)) (jobs (tick w)).
Proof.
  intros H. unfold tick.
  destruct (jobs w) as [|j js] eqn:Hj; [rewrite Hj; exact H|].
  assert (H' : well_formed (promises (with_jobs js w))
                 (jobs (with_jobs js w))).
  { destruct H as [HA HJ]. split; [exact HA|].
    simpl. inversion HJ; assumption. }
  unfold run_job.
  destruct (reaction_handler (job_reaction j) (job_arg j)) as [h|].
  - pose proof (handle_wf h (settled_value (job_arg j)) _ H') as Hh.
    destruct (handle h (settled_value (job_arg j)) (with_jobs js w))
      as [[v|e] w1]; apply well_formed_settle, Hh.
  - apply well_formed_settle, H'.
Qed.

Lemma step_wf i w :
  well_formed (promises w) (jobs w) ->
  well_formed (promises (step i w)) (jobs (step i w)).
Proof.
  destruct i; simpl;
    auto using invoke_wf, well_formed_respond, tick_wf.
Qed.

Lemma run_wf inputs w :
  well_formed (promises w) (jobs w) ->
  well_formed (promises (run inputs w)) (jobs (run inputs w)).
Proof.
  revert w. induction inputs as [|i rest IH]; intros w H; simpl; [exact H|].
  apply IH, step_wf, H.
Qed.

Lemma new_world_wf s inputs :
  well_formed (promises (run inputs (new_world s)))
    (jobs (run inputs (new_world s))).
Proof.
  apply run_wf. split; [|constructor].
  intros p og rs Hp. simpl in Hp. rewrite lookup_nil in Hp. discriminate.
Qed.

(** A fetch of slice [k] completes with [v] only when the backend has
    fulfilled a request for slice [k], and [v] is what its response
    projects to. *)
Lemma completes_provenance k i w v :
  well_formed (promises w) (jobs w) ->
  completes k i w = Some v ->
  exists p gid resp,
    promises w !! p
    = Some {| origin := FromBackend (fetch_request k gid);
              pstate := Done (Fulfilled resp) |}
    /\ project k resp = Normal v.
Proof.
  intros [_ HJ]. unfold completes.
  destruct i; try discriminate.
  destruct (jobs w) as [|j js]; [discriminate|].
  case_decide as Hh; [|discriminate].
  inversion HJ as [|? ? [_ Hj] _]; subst.
  destruct (Hj k Hh) as (p & gid & resp & Harg & Hp).
  rewrite Harg. simpl.
  destruct (project k resp) as [v'|] eqn:E; [|discriminate].
  intros [= <-]. eauto.
Qed.

End WellFormed.

(* ------------------------------------------------------------------ *)
(** *** Only the backend settles a backend promise *)

Lemma keeps_promises_refl w : keeps_promises w w.
Proof.
  intros p og st H. exists st. split; [exact H|].
  destruct st; eauto.
Qed.

Lemma keeps_promises_trans a b c :
  keeps_promises a b -> keeps_promises b c -> keeps_promises a c.
Proof.
  intros H1 H2 p og st H.
  destruct (H1 p og st H) as (st1 & E1 & S1).
  destruct (H2 p og st1 E1) as (st2 & E2 & S2).
  exists st2. split; [exact E2|].
  destruct st as [rs|o].
  - destruct S1 as [rs1 ->]. exact S2.
  - subst st1. exact S2.
Qed.

Lemma new_promise_keeps o : preserved keeps_promises (new_promise o).
Proof.
  intros w p og st H. exists st. simpl.
  rewrite lookup_app_l by (eapply lookup_lt_Some; eauto).
  split; [exact H|]. destruct st; eauto.
Qed.

Lemma register_keeps p r : preserved keeps_promises (register p r).
Proof.
  intros w q og st H. unfold register.
  destruct (promises w !! p) as [[o [rs|s]]|] eqn:E; simpl;
    try (exists st; split; [exact H|]; destruct st; eauto).
  destruct (decide (p = q)) as [->|Hne].
  - rewrite E in H. injection H as <- <-.
    exists (Pending (rs ++ [r])).
    rewrite list_lookup_insert_eq by (eapply lookup_lt_Some; eauto).
    eauto.
  - exists st. rewrite list_lookup_insert_ne by exact Hne.
    split; [exact H|]. destruct st; eauto.
Qed.

Lemma settle_other d o w p :
  d <> p -> promises (settle d o w) !! p = promises w !! p.
Proof.
  intros Hne. unfold settle.
  destruct (promises w !! d) as [[og [rs|s]]|]; simpl; try reflexivity.
  apply list_lookup_insert_ne. exact Hne.
Qed.

Section BackendSettles.
Context {groups : Groups}.

Ltac kept_by_primitives :=
  unfold _fetchSummary, _fetchRooms, _fetchMembers,
    emit, console_error, effect, backend, then_, catch_, then2;
  preserved_steps keeps_promises_refl keeps_promises_trans;
  try apply new_promise_keeps; try apply register_keeps;
  try (intros w; apply keeps_promises_refl).

Lemma handle_keeps h arg : preserved keeps_promises (handle h arg).
Proof.
  destruct h; simpl;
    unfold onMembers, onMembersFailed, onInvited, onInvitedFailed,
      onSummary, onSummaryFailed, onRooms, onRoomsFailed,
      invalidateFlair, _notifyListeners,
      FlairStore.invalidatePublicisedGroups;
    kept_by_primitives.
Qed.

Lemma invoke_keeps m w : keeps_promises w (invoke m w).
Proof.
  assert (Hm : forall op, mutation m = Some op ->
                 preserved keeps_promises op).
  { destruct m; simpl; intros op [= <-];
      unfold addRoomToGroup, updateGroupRoomVisibility, removeRoomFromGroup,
        inviteUserToGroup, acceptGroupInvite, addRoomToGroupSummary,
        addUserToGroupSummary, removeRoomFromGroupSummary,
        removeUserFromGroupSummary, setGroupPublicity;
      kept_by_primitives. }
  assert (Hr : forall fn, preserved keeps_promises (registerListener fn)).
  { intros fn. unfold registerListener. kept_by_primitives. }
  destruct m; simpl; try apply Hr; try apply (Hm _ eq_refl).
  intros p og st H. exists st. split; [exact H|]. destruct st; eauto.
Qed.

(** A backend promise that is pending before a step and settled after
    it has been settled by the backend at that step: the outcome of a
    backend promise is the answer of the backend. *)
Lemma backend_promise_settled_by_respond i w p r rs o :
  well_formed (promises w) (jobs w) ->
  promises w !! p = Some {| origin := FromBackend r; pstate := Pending rs |} ->
  promise_state (step i w) p = Some (Done o) ->
  i = Respond p o.
Proof.
  intros [_ HJ] Hp Hdone. unfold promise_state in Hdone.
  assert (Hkept : forall w',
             keeps_promises w w' ->
             pstate <$> promises w' !! p = Some (Done o) -> False).
  { intros w' Hk H. destruct (Hk _ _ _ Hp) as (st' & E & [rs' ->]).
    rewrite E in H. discriminate. }
  destruct i as [m|q o'|]; simpl in Hdone.
  - destruct (Hkept _ (invoke_keeps m w) Hdone).
  - destruct (decide (q = p)) as [->|Hne].
    + unfold respond, settle in Hdone. rewrite Hp in Hdone. simpl in Hdone.
      rewrite list_lookup_insert_eq in Hdone
        by (eapply lookup_lt_Some; eauto).
      injection Hdone as ->. reflexivity.
    + exfalso. unfold respond in Hdone.
      destruct (promises w !! q) as [[[r'|] [rs'|s']]|];
        rewrite ?settle_other in Hdone by exact Hne;
        rewrite Hp in Hdone; discriminate.
  - exfalso. unfold tick in Hdone.
    destruct (jobs w) as [|j js]; [rewrite Hp in Hdone; discriminate|].
    inversion HJ as [|? ? [[st Hd] _] _]; subst.
    assert (Hgo : forall w' o',
               keeps_promises w w' ->
               pstate <$> promises (settle (derived (job_reaction j)) o' w')
                          !! p = Some (Done o) -> False).
    { intros w' o' Hk H.
      destruct (Hk _ _ _ Hd) as (st1 & E1 & _).
      destruct (Hk _ _ _ Hp) as (st2 & E2 & [rs2 ->]).
      rewrite settle_other in H.
      - rewrite E2 in H. discriminate.
      - intros Heq. rewrite Heq in E1. rewrite E1 in E2. discriminate. }
    unfold run_job in Hdone.
    destruct (reaction_handler (job_reaction j) (job_arg j)) as [h|].
    + pose proof (handle_keeps h (settled_value (job_arg j))
                    (with_jobs js w)) as Hk.
      destruct (handle h (settled_value (job_arg j)) (with_jobs js w))
        as [[v|e] w1]; simpl in Hk; eapply Hgo; eauto.
    + eapply (Hgo (with_jobs js w)); [|exact Hdone].
      exact (keeps_promises_refl w).
Qed.

End BackendSettles.

(* ================================================================== *)
(** ** Mutations and their completion signal *)
(* ================================================================== *)

Lemma requests_app t1 t2 : requests (t1 ++ t2) = requests t1 ++ requests t2.
Proof. unfold requests. apply omap_app. Qed.

Section Mutations.
Context {groups : Groups}.

Lemma mutation_cases m op :
  mutation m = Some op ->
  (exists r b, m = AddRoomToGroup r b /\ op = addRoomToGroup r b)
  \/ (exists r b, m = UpdateGroupRoomVisibility r b
                  /\ op = updateGroupRoomVisibility r b)
  \/ (exists r, m = RemoveRoomFromGroup r /\ op = removeRoomFromGroup r)
  \/ (exists u, m = InviteUserToGroup u /\ op = inviteUserToGroup u)
  \/ (m = AcceptGroupInvite /\ op = acceptGroupInvite)
  \/ (exists r c, m = AddRoomToGroupSummary r c
                  /\ op = addRoomToGroupSummary r c)
  \/ (exists u r, m = AddUserToGroupSummary u r
                  /\ op = addUserToGroupSummary u r)
  \/ (exists r, m = RemoveRoomFromGroupSummary r
                /\ op = removeRoomFromGroupSummary r)
  \/ (exists u, m = RemoveUserFromGroupSummary u
                /\ op = removeUserFromGroupSummary u)
  \/ (exists b, m = SetGroupPublicity b /\ op = setGroupPublicity b).
Proof.
  destruct m; simpl; intros [= <-]; eauto 15.
Qed.

Ltac unfold_mutations :=
  unfold addRoomToGroup, updateGroupRoomVisibility, removeRoomFromGroup,
    inviteUserToGroup, acceptGroupInvite, addRoomToGroupSummary,
    addUserToGroupSummary, removeRoomFromGroupSummary,
    removeUserFromGroupSummary, setGroupPublicity.

Ltac unfold_callbacks :=
  unfold handle, onSummary, onSummaryFailed, onRooms, onRoomsFailed,
    onMembers, onMembersFailed, onInvited, onInvitedFailed,
    invalidateFlair, _notifyListeners, emit.


End Mutations.

(* ================================================================== *)
(** ** Fetches *)
(* ================================================================== *)


(** Puts any world in [mk_world] form. *)
Ltac in_mk_world w :=
  let s := fresh "s" in
  let ps := fresh "ps" in
  let js := fresh "js" in
  let t := fresh "t" in
  destruct w as [s ps js t]; cbn [jobs promises store trace] in *;
  rewrite (world_eta (Build_World s ps js t));
  cbn [jobs promises store trace].

Section Fetches.
Context {groups : Groups}.

Ltac unfold_fetches :=
  unfold fetch, _fetchSummary, _fetchRooms, _fetchMembers.

Ltac unfold_callbacks :=
  unfold handle, onSummary, onSummaryFailed, onRooms, onRoomsFailed,
    onMembers, onMembersFailed, onInvited, onInvitedFailed,
    _notifyListeners, emit.


Lemma project_chunk_map k resp v :
  project k resp = Normal v ->
  match k with
  | SSummary => v = resp
  | SRooms =>
      exists l, chunk_map groupRoomFromApiObject resp = Normal l /\ v = JArr l
  | SMembers | SInvited =>
      exists l, chunk_map groupMemberFromApiObject resp = Normal l
                /\ v = JArr l
  end.
Proof.
  destruct k; simpl.
  - congruence.
  - destruct (chunk_map groupRoomFromApiObject resp) as [l|];
      intros [= <-]; eauto.
  - destruct (chunk_map groupMemberFromApiObject resp) as [l|];
      intros [= <-]; eauto.
  - destruct (chunk_map groupMemberFromApiObject resp) as [l|];
      intros [= <-]; eauto.
Qed.

(** A fetch whose request the backend answers with a response that
    projects: the cache takes the projected value, the flag of the
    slice is set, and the listeners are told. *)
Lemma fetch_success k w resp v :
  jobs w = [] ->
  project k resp = Normal v ->
  let n := length (promises w) + fetch_offset k in
  let w1 := snd (fetch k w) in
  let w2 := run [Respond n (Fulfilled resp); Tick; Tick] w1 in
  cached k (store w2) = v
  /\ _ready (store w2) = <[state_key k := JBool true]> (_ready (store w))
  /\ trace w2 = trace w1 ++ Emitted "update" []
                            :: (Notified <$> listeners (store w)).
Proof.
  intros Hq Hproj n w1 w2. subst n w1 w2. quiescent w Hq.
  apply project_chunk_map in Hproj.
  destruct k; [subst v|destruct Hproj as (l & E & ->)..];
    cbn [fetch fetch_offset];
    match goal with
    | |- context [snd (?f (mk_world ?a ?b ?c ?d ?e))] =>
        js_compute (f (mk_world a b c d e)) ltac:(unfold_fetches)
    end; cbn [snd];
    match goal with
    | |- context [run ?l (mk_world ?a ?b ?c ?d ?e)] =>
        js_compute (run l (mk_world a b c d e))
          ltac:(unfold_callbacks; rewrite ?E)
    end;
    js_eval; rewrite <- ?app_assoc; repeat split; reflexivity.
Qed.

(** A fetch whose request the backend rejects: the store is as
    before. *)
Lemma fetch_failure k w e :
  jobs w = [] ->
  let n := length (promises w) + fetch_offset k in
  let w2 := run [Respond n (Rejected e); Tick; Tick] (snd (fetch k w)) in
  store w2 = store w.
Proof.
  intros Hq n w2. subst n w2. quiescent w Hq.
  destruct (get_prop e "httpStatus") as [st|e'] eqn:E1;
    [destruct (strict_eq_num st 403) eqn:E2|];
    destruct k; cbn [fetch fetch_offset];
    match goal with
    | |- context [snd (?f (mk_world ?a ?b ?c ?d ?e))] =>
        js_compute (f (mk_world a b c d e)) ltac:(unfold_fetches)
    end; cbn [snd];
    match goal with
    | |- context [run ?l (mk_world ?a ?b ?c ?d ?e)] =>
        js_compute (run l (mk_world a b c d e))
          ltac:(unfold_callbacks; rewrite ?E1, ?E2)
    end;
    js_eval; reflexivity.
Qed.

Lemma constructor_initial c gid s0 :
  constructor c gid = Normal s0 ->
  (forall k, cached k s0 = initial k) /\ _ready s0 = ∅.
Proof.
  unfold constructor. destruct (negb (truthy gid)); [discriminate|].
  intros [= <-]. split; [intros []|]; reflexivity.
Qed.

(** C3.  For each of the four slices: when the backend answers the
    fetch of the slice with a response that projects to [v], the cache
    of the slice is [v], the accessor returns [v] and [isStateReady]
    returns [true] for the slice; when the backend rejects the request,
    the cache and every readiness flag are as before; and after any
    run from a newly constructed store the cache of the slice is the
    value of the latest fetch of the slice that completed, or the
    initial empty value when none did.  A fetch completes, in such a
    run, only with the projection of a response with which the backend
    has fulfilled a request for that slice. *)
Theorem slices_hold_the_latest_fetched_value
    (k : Slice) (w : World) (resp v e : JsVal)
    (c : MatrixClient) (gid : JsVal) (s0 : GroupStore)
    (inputs : list Input) :
  jobs w = [] ->
  project k resp = Normal v ->
  constructor c gid = Normal s0 ->
  let n := length (promises w) + fetch_offset k in
  let w1 := snd (fetch k w) in
  let ok := run [Respond n (Fulfilled resp); Tick; Tick] w1 in
  let ko := run [Respond n (Rejected e); Tick; Tick] w1 in
  let reached := run inputs (new_world s0) in
  (cached k (store ok) = v
   /\ isStateReady (store ok) (state_key k) = JBool true)
  /\ (cached k (store ko) = cached k (store w)
      /\ _ready (store ko) = _ready (store w))
  /\ cached k (store reached)
     = default (initial k) (last_fetched k inputs (new_world s0) None)
  /\ (forall i v',
        completes k i reached = Some v' ->
        exists p gid' resp',
          promises reached !! p
          = Some {| origin := FromBackend (fetch_request k gid');
                    pstate := Done (Fulfilled resp') |}
          /\ project k resp' = Normal v').
Proof.
  intros Hq Hproj Hnew n w1 ok ko reached.
  destruct (fetch_success k w resp v Hq Hproj) as (Hc & Hr & _).
  pose proof (fetch_failure k w e Hq) as Hf.
  destruct (constructor_initial c gid s0 Hnew) as [Hinit _].
  split; [split|split; [split|split]].
  - exact Hc.
  - unfold isStateReady. subst ok w1 n. rewrite Hr, lookup_insert_eq.
    reflexivity.
  - subst ko w1 n. cbv zeta in Hf. rewrite Hf. reflexivity.
  - subst ko w1 n. cbv zeta in Hf. rewrite Hf. reflexivity.
  - subst reached. rewrite run_cached. simpl store. rewrite Hinit.
    reflexivity.
  - intros i v'. apply completes_provenance, new_world_wf.
Qed.

End Fetches.

(* ================================================================== *)
(** ** Registration of a listener, and the order of what mutations do *)
(* ================================================================== *)

Lemma count_emitted_notified event (l : list nat) t :
  count_emitted event ((Notified <$> l) ++ t) = count_emitted event t.
Proof.
  unfold count_emitted. induction l as [|x l IH]; simpl; [reflexivity|].
  rewrite filter_cons_False by (simpl; discriminate). exact IH.
Qed.

Section Order.
Context {groups : Groups}.

Ltac unfold_fetches :=
  unfold fetch, _fetchSummary, _fetchRooms, _fetchMembers.

(** C5.  [registerListener fn] returns after it has, in this order,
    emitted one "update" event, which reaches the listeners registered
    so far and [fn], and sent the summary request, the rooms request,
    the members request and the invited-members request.  When it
    returns, the four requests are pending with their callbacks
    attached, no job has been queued and the caches and readiness
    flags are as before: the notification is delivered before any of
    the fetches has resolved. *)
Theorem registerListener_notifies_then_fetches (fn : Callback) (w : World) :
  let n := length (promises w) in
  let gid := groupId (store w) in
  let r := registerListener fn w in
  let issued := drop (length (trace w)) (trace (snd r)) in
  fst r = Normal JUndefined
  /\ trace (snd r)
     = trace w
       ++ [Emitted "update" []]
       ++ (Notified <$> (listeners (store w) ++ [fn]))
       ++ [BackendCall (Client.getGroupSummary gid) n;
           BackendCall (Client.getGroupRooms gid) (n + 3);
           BackendCall (Client.getGroupUsers gid) (n + 6);
           BackendCall (Client.getGroupInvitedUsers gid) (n + 9)]
  /\ count_emitted "update" issued = 1
  /\ jobs (snd r) = jobs w
  /\ (forall k, cached k (store (snd r)) = cached k (store w))
  /\ _ready (store (snd r)) = _ready (store w)
  /\ promise_state (snd r) n
     = Some (Pending [{| onFulfilled := Some OnSummary; onRejected := None;
                         derived := n + 1 |}])
  /\ promise_state (snd r) (n + 3)
     = Some (Pending [{| onFulfilled := Some OnRooms; onRejected := None;
                         derived := n + 4 |}])
  /\ promise_state (snd r) (n + 6)
     = Some (Pending [{| onFulfilled := Some OnMembers; onRejected := None;
                         derived := n + 7 |}])
  /\ promise_state (snd r) (n + 9)
     = Some (Pending [{| onFulfilled := Some OnInvited; onRejected := None;
                         derived := n + 10 |}]).
Proof.
  intros n gid r issued. subst n gid r issued. in_mk_world w.
  js_compute (registerListener fn (mk_world s ps [] js t))
    ltac:(unfold registerListener, emit; unfold_fetches).
  cbn [fst snd]. js_eval.
  rewrite drop_app_length.
  change (Emitted "update" [] :: ?l) with ([Emitted "update" []] ++ l).
  repeat split; try reflexivity; try (intros []; reflexivity).
  change ([Emitted "update" []] ++ ?l) with (Emitted "update" [] :: l).
  unfold count_emitted at 1. rewrite filter_cons_True by reflexivity.
  cbn [length]. f_equal.
  etransitivity; [apply (count_emitted_notified "update")|reflexivity].
Qed.

Ltac eval_call :=
  match goal with
  | |- context [snd (?f (mk_world ?a ?b ?c ?d ?e))] =>
      js_compute (f (mk_world a b c d e))
        ltac:(unfold removeRoomFromGroup, setGroupPublicity)
  end; cbn [fst snd].

Ltac eval_runs tac :=
  repeat match goal with
    | |- context [run ?l (mk_world ?a ?b ?c ?d ?e)] =>
        js_compute (run l (mk_world a b c d e))
          ltac:(unfold handle, invalidateFlair; unfold_fetches; tac)
    | |- context [tick (mk_world ?a ?b ?c ?d ?e)] =>
        js_compute (tick (mk_world a b c d e))
          ltac:(unfold handle, invalidateFlair; unfold_fetches; tac)
    end.

(** C6.  [removeRoomFromGroup roomId] sends the remove-room request
    and nothing else, and nothing more happens before the backend
    answers.  When the backend fulfils the request, the next job sends
    the summary request and the job after it the rooms request.  When
    the backend rejects it with [e], no request is sent, the returned
    promise is rejected with [e], and the chain is over: its promises
    are settled and no job is left. *)
Theorem removeRoomFromGroup_refreshes_after_success
    (roomId : JsVal) (w : World) (v e : JsVal) :
  jobs w = [] ->
  let n := length (promises w) in
  let gid := groupId (store w) in
  let req := Client.removeRoomFromGroup gid roomId in
  let r := removeRoomFromGroup roomId w in
  let w1 := snd r in
  let answered := run [Respond n (Fulfilled v)] w1 in
  let first := tick answered in
  let second := tick first in
  let failed := run [Respond n (Rejected e); Tick; Tick] w1 in
  fst r = Normal (n + 2)
  /\ trace w1 = trace w ++ [BackendCall req n]
  /\ tick w1 = w1
  /\ trace answered = trace w1
  /\ trace first
     = trace w1 ++ [BackendCall (Client.getGroupSummary gid) (n + 3)]
  /\ trace second
     = trace first ++ [BackendCall (Client.getGroupRooms gid) (n + 6)]
  /\ promise_state second (n + 2) = Some (Done (Fulfilled JUndefined))
  /\ trace failed = trace w1
  /\ promise_state failed (n + 2) = Some (Done (Rejected e))
  /\ promises failed
     = promises w
       ++ [{| origin := FromBackend req; pstate := Done (Rejected e) |};
           {| origin := FromThen; pstate := Done (Rejected e) |};
           {| origin := FromThen; pstate := Done (Rejected e) |}]
  /\ jobs failed = [].
Proof.
  intros Hq n gid req r w1 answered first second failed.
  subst n gid req r w1 answered first second failed. quiescent w Hq.
  eval_call. eval_runs idtac. js_eval. rewrite <- ?app_assoc.
  repeat split; reflexivity.
Qed.

(** C7.  [setGroupPublicity isPublished] sends the publicity request
    and nothing else.  When the backend fulfils the request, the next
    job invalidates the flair cache for [credentials.userId] of the
    matrix client, and only the job after it sends the summary
    request.  When the backend rejects the request with [e], the flair
    cache is not touched and no request is sent, the returned promise
    is rejected with [e], and the chain is over. *)
Theorem setGroupPublicity_invalidates_before_refresh
    (isPublished : JsVal) (w : World) (userId v e : JsVal) :
  jobs w = [] ->
  get_prop (credentials (_matrixClient (store w))) "userId" = Normal userId ->
  let n := length (promises w) in
  let gid := groupId (store w) in
  let req := Client.setGroupPublicity gid isPublished in
  let r := setGroupPublicity isPublished w in
  let w1 := snd r in
  let answered := run [Respond n (Fulfilled v)] w1 in
  let first := tick answered in
  let second := tick first in
  let failed := run [Respond n (Rejected e); Tick; Tick] w1 in
  fst r = Normal (n + 2)
  /\ trace w1 = trace w ++ [BackendCall req n]
  /\ tick w1 = w1
  /\ trace answered = trace w1
  /\ trace first = trace w1 ++ [FlairInvalidated userId]
  /\ trace second
     = trace first ++ [BackendCall (Client.getGroupSummary gid) (n + 3)]
  /\ trace failed = trace w1
  /\ promise_state failed (n + 2) = Some (Done (Rejected e))
  /\ promises failed
     = promises w
       ++ [{| origin := FromBackend req; pstate := Done (Rejected e) |};
           {| origin := FromThen; pstate := Done (Rejected e) |};
           {| origin := FromThen; pstate := Done (Rejected e) |}]
  /\ jobs failed = [].
Proof.
  intros Hq Hcred n gid req r w1 answered first second failed.
  subst n gid req r w1 answered first second failed. quiescent w Hq.
  eval_call. eval_runs ltac:(rewrite ?Hcred). js_eval. rewrite <- ?app_assoc.
  repeat split; reflexivity.
Qed.

End Order.

(* ================================================================== *)
(** ** Construction, accessors and readiness *)
(* ================================================================== *)

(** C8.  Construction throws for the group ids [undefined], [null] and
    the empty string, in general for every value that is false as a
    condition; for a non-empty string, in general for every other
    value, it gives a store with the empty record as summary, empty
    rooms, members and invited members, and no readiness flag:
    [_ready] is the empty object and [isStateReady] is [undefined] at
    each of the four state keys. *)
Theorem constructor_needs_a_groupId
    (matrixClient : MatrixClient) (gid : JsVal) (a : Ascii.ascii)
    (rest : string) (k : Slice) :
  let failure :=
    Throw (Error "GroupStore needs a valid groupId to be created") in
  let created g :=
    Normal {| groupId := g; _matrixClient := matrixClient;
              _summary := JObj []; _rooms := []; _members := [];
              _invitedMembers := []; _ready := ∅; listeners := [] |} in
  constructor matrixClient JUndefined = failure
  /\ constructor matrixClient JNull = failure
  /\ constructor matrixClient (JStr "") = failure
  /\ constructor matrixClient (JStr (String a rest))
     = created (JStr (String a rest))
  /\ constructor matrixClient gid
     = (if truthy gid then created gid else failure)
  /\ match constructor matrixClient gid with
     | Normal s =>
         getSummary s = JObj []
         /\ getGroupRooms s = JArr []
         /\ getGroupMembers s = JArr []
         /\ getGroupInvitedMembers s = JArr []
         /\ isStateReady s (state_key k) = JUndefined
     | Throw _ => truthy gid = false
     end.
Proof.
  cbv zeta. repeat split; try reflexivity.
  - unfold constructor. destruct (truthy gid); reflexivity.
  - unfold constructor. destruct (truthy gid); simpl; [|reflexivity].
    repeat split; try reflexivity. destruct k; reflexivity.
Qed.

(** C9, as the code has it.  Both accessors give [null] for a store
    that has just been constructed and for a summary without [user];
    for a summary whose [user] is an object they give the field of
    that object, which is [undefined], not [null], when the object
    lacks the field. *)
Theorem publicity_and_privilege_read_the_summary_user
    (s : GroupStore) (fs ufs : list (string * JsVal))
    (matrixClient : MatrixClient) (gid : JsVal) (s0 : GroupStore) :
  constructor matrixClient gid = Normal s0 ->
  _summary s = JObj fs ->
  (getGroupPublicity s0 = Normal JNull /\ isUserPrivileged s0 = Normal JNull)
  /\ (assoc "user" fs = None ->
      getGroupPublicity s = Normal JNull /\ isUserPrivileged s = Normal JNull)
  /\ (assoc "user" fs = Some (JObj ufs) ->
      getGroupPublicity s
      = Normal (default JUndefined (assoc "is_publicised" ufs))
      /\ isUserPrivileged s
         = Normal (default JUndefined (assoc "is_privileged" ufs))).
Proof.
  intros Hnew Hsum.
  unfold getGroupPublicity, isUserPrivileged, summary_user_field.
  split; [|split].
  - unfold constructor in Hnew.
    destruct (negb (truthy gid)); [discriminate|].
    injection Hnew as <-. split; reflexivity.
  - intros Huser. rewrite Hsum. simpl. rewrite Huser. split; reflexivity.
  - intros Huser. rewrite Hsum. simpl. rewrite Huser. split; reflexivity.
Qed.

Section Readiness.
Context {groups : Groups}.

Lemma is_state_key_dec (key : string) :
  {k | key = state_key k} + {forall k, key <> state_key k}.
Proof.
  destruct (decide (key = state_key SSummary)) as [H|H1];
    [left; eauto|].
  destruct (decide (key = state_key SRooms)) as [H|H2]; [left; eauto|].
  destruct (decide (key = state_key SMembers)) as [H|H3]; [left; eauto|].
  destruct (decide (key = state_key SInvited)) as [H|H4]; [left; eauto|].
  right. intros []; assumption.
Qed.

(** The flags of a store that started new, after any run. *)
Lemma inherited_state_key k : inherited (state_key k) = None.
Proof. destruct k; reflexivity. Qed.

(** What an object inherits is a function or an object, never a
    boolean and never [undefined]. *)
Lemma inherited_is_object key v :
  inherited key = Some v -> exists fs, v = JObj fs.
Proof.
  unfold inherited. destruct (String.eqb key "__proto__").
  - intros [= <-]. eauto.
  - unfold Object_prototype. cbn [assoc].
    repeat match goal with
    | |- context [String.eqb key ?n] => destruct (String.eqb key n)
    end;
    intros [= <-]; unfold builtin; eauto.
Qed.

Lemma ready_after_run c gid s0 inputs key :
  constructor c gid = Normal s0 ->
  _ready (store (run inputs (new_world s0))) !! key
  = match is_state_key_dec key with
    | inleft (exist _ k _) =>
        match last_fetched k inputs (new_world s0) None with
        | Some _ => Some (JBool true)
        | None => None
        end
    | inright _ => None
    end.
Proof.
  intros Hnew. destruct (constructor_initial c gid s0 Hnew) as [_ Hready].
  destruct (is_state_key_dec key) as [[k ->]|Hother].
  - rewrite run_ready. simpl store. rewrite Hready, lookup_empty.
    reflexivity.
  - rewrite run_ready_other by exact Hother.
    simpl store. rewrite Hready. apply lookup_empty.
Qed.

(** C4.  After any run from a newly constructed store, the flag of a
    slice is [true] exactly when a fetch of the slice has completed in
    the run.  In any world, the flag of a slice is [true] after a step
    exactly when it was before or a fetch of the slice completes at
    that step.  A flag that is [true] is [true] after every step and
    every run. *)
Theorem readiness_is_set_by_fetches_and_never_reset
    (k : Slice) (key : string) (matrixClient : MatrixClient) (gid : JsVal)
    (s0 : GroupStore) (inputs more : list Input) (i : Input) (w w' : World) :
  constructor matrixClient gid = Normal s0 ->
  _ready (store w) !! key = Some (JBool true) ->
  (_ready (store (run inputs (new_world s0))) !! state_key k
   = Some (JBool true)
   <-> is_Some (last_fetched k inputs (new_world s0) None))
  /\ (_ready (store (step i w')) !! state_key k = Some (JBool true)
      <-> _ready (store w') !! state_key k = Some (JBool true)
          \/ is_Some (completes k i w'))
  /\ _ready (store (step i w)) !! key = Some (JBool true)
  /\ _ready (store (run more w)) !! key = Some (JBool true).
Proof.
  intros Hnew Hset.
  destruct (constructor_initial matrixClient gid s0 Hnew) as [_ Hready].
  split; [|split; [|split]].
  - rewrite run_ready. simpl store. rewrite Hready, lookup_empty.
    destruct (last_fetched k inputs (new_world s0) None); split;
      intros H; try reflexivity; try discriminate; eauto.
    destruct H as [? H]. discriminate.
  - rewrite step_ready.
    destruct (completes k i w') as [x|]; split; intros H; eauto.
    destruct H as [H|[? H]]; [exact H|discriminate].
  - apply step_ready_mono. exact Hset.
  - apply run_ready_mono. exact Hset.
Qed.

(** C10, as the code has it.  After any run from a newly constructed
    store: [isStateReady] returns [undefined] for a slice no fetch of
    which has completed; for a key that is not one of the four state
    keys it returns what the empty object has under that key, which is
    [undefined] unless the key is a name inherited from
    [Object.prototype]; it returns [true] only for a state key a fetch
    of whose slice has completed; and it returns [false] for no key at
    all. *)
Theorem isStateReady_is_undefined_until_fetched
    (k : Slice) (key : string) (matrixClient : MatrixClient) (gid : JsVal)
    (s0 : GroupStore) (inputs : list Input) :
  constructor matrixClient gid = Normal s0 ->
  let w := run inputs (new_world s0) in
  (last_fetched k inputs (new_world s0) None = None ->
   isStateReady (store w) (state_key k) = JUndefined)
  /\ ((forall k', key <> state_key k') ->
      isStateReady (store w) key = default JUndefined (inherited key))
  /\ ((forall k', key <> state_key k') ->
      inherited key = None ->
      isStateReady (store w) key = JUndefined)
  /\ (isStateReady (store w) (state_key k) = JBool true ->
      is_Some (last_fetched k inputs (new_world s0) None))
  /\ (isStateReady (store w) key = JBool true ->
      exists k', key = state_key k'
                 /\ is_Some (last_fetched k' inputs (new_world s0) None))
  /\ isStateReady (store w) key <> JBool false
  /\ (inherited key = None ->
      isStateReady (store w) key = JUndefined
      \/ isStateReady (store w) key = JBool true).
Proof.
  intros Hnew w. subst w. unfold isStateReady.
  destruct (constructor_initial matrixClient gid s0 Hnew) as [_ Hready].
  assert (Hobj : forall b, default JUndefined (inherited key) <> JBool b).
  { intros b. destruct (inherited key) as [v|] eqn:E; [|discriminate].
    destruct (inherited_is_object key v E) as [fs ->]. discriminate. }
  split; [|split; [|split; [|split; [|split; [|split]]]]].
  - intros Hnone. rewrite run_ready, Hnone. simpl store.
    rewrite Hready, lookup_empty, inherited_state_key. reflexivity.
  - intros Hother. rewrite run_ready_other by exact Hother.
    simpl store. rewrite Hready, lookup_empty. reflexivity.
  - intros Hother Hown. rewrite run_ready_other by exact Hother.
    simpl store. rewrite Hready, lookup_empty, Hown. reflexivity.
  - rewrite run_ready. simpl store.
    rewrite Hready, lookup_empty, inherited_state_key.
    destruct (last_fetched k inputs (new_world s0) None); [eauto|].
    discriminate.
  - rewrite (ready_after_run _ _ _ _ _ Hnew).
    destruct (is_state_key_dec key) as [[k' Hk']|_].
    + destruct (last_fetched k' inputs (new_world s0) None) eqn:E.
      * intros _. exists k'. rewrite E. eauto.
      * subst key. rewrite inherited_state_key. discriminate.
    + intros H. destruct (Hobj true H).
  - rewrite (ready_after_run _ _ _ _ _ Hnew).
    destruct (is_state_key_dec key) as [[k' _]|_]; [|apply Hobj].
    destruct (last_fetched k' inputs (new_world s0) None);
      [discriminate|apply Hobj].
  - intros Hown. rewrite (ready_after_run _ _ _ _ _ Hnew), Hown.
    destruct (is_state_key_dec key) as [[k' _]|_]; [|left; reflexivity].
    destruct (last_fetched k' inputs (new_world s0) None);
      [right|left]; reflexivity.
Qed.

End Readiness.

(* ================================================================== *)
(** ** More on mutations *)
(* ================================================================== *)

Section MoreMutations.
Context {groups : Groups}.

Ltac unfold_fetches :=
  unfold fetch, _fetchSummary, _fetchRooms, _fetchMembers.

Ltac unfold_callbacks :=
  unfold handle, onSummary, onSummaryFailed, onRooms, onRoomsFailed,
    onMembers, onMembersFailed, onInvited, onInvitedFailed,
    invalidateFlair, _notifyListeners, emit.

Ltac unfold_mutations :=
  unfold addRoomToGroup, updateGroupRoomVisibility, removeRoomFromGroup,
    inviteUserToGroup, acceptGroupInvite, addRoomToGroupSummary,
    addUserToGroupSummary, removeRoomFromGroupSummary,
    removeUserFromGroupSummary, setGroupPublicity.

Ltac eval_op :=
  match goal with
  | |- context [?f (mk_world ?a ?b ?c ?d ?e)] =>
      lazymatch type of f with
      | M _ => js_compute (f (mk_world a b c d e)) ltac:(unfold_mutations)
      end
  end; cbn [fst snd].

Ltac eval_run tac :=
  match goal with
  | |- context [run ?l (mk_world ?a ?b ?c ?d ?e)] =>
      js_compute (run l (mk_world a b c d e))
        ltac:(unfold_callbacks; unfold_fetches; tac)
  end.

(** A mutation whose backend call fails.  The call sends its one
    request, with the group id of the store and the arguments given,
    and returns a pending promise.  When the backend rejects the
    request with [e], the returned promise is rejected with [e];
    nothing is shown to the outside (no refresh request, no "error"
    event, no console output), the store is as before and no job is
    left. *)
Theorem mutation_failure_rejects_the_signal
    (m : Method) (op : M PromiseId) (w : World) (e : JsVal) :
  mutation m = Some op ->
  jobs w = [] ->
  let n := length (promises w) in
  let p := n + chain_length m in
  let w1 := snd (op w) in
  let w2 := run [Respond n (Rejected e); Tick; Tick] w1 in
  fst (op w) = Normal p
  /\ (exists req, mutation_request m (groupId (store w)) = Some req
                  /\ trace w1 = trace w ++ [BackendCall req n])
  /\ store w1 = store w
  /\ promise_state w1 p = Some (Pending [])
  /\ trace w2 = trace w1
  /\ store w2 = store w
  /\ promise_state w2 p = Some (Done (Rejected e))
  /\ jobs w2 = [].
Proof.
  intros Hop Hq n p w1 w2. subst n p w1 w2. quiescent w Hq.
  destruct (mutation_cases m op Hop)
    as [(r & b & -> & ->)|[(r & b & -> & ->)|[(r & -> & ->)|
        [(u & -> & ->)|[(-> & ->)|[(r & c & -> & ->)|[(u & r & -> & ->)|
        [(r & -> & ->)|[(u & -> & ->)|(b & -> & ->)]]]]]]]]].
  all: eval_op; eval_run idtac; js_eval.
  all: repeat split; try reflexivity; eexists; split; reflexivity.
Qed.

(** A mutation whose backend call succeeds sends, in the two jobs that
    follow the answer, the requests of its refresh steps in the order
    of its chain, and changes nothing in the store: the caches change
    only when those requests are answered. *)
Theorem mutation_success_issues_its_refreshes
    (m : Method) (op : M PromiseId) (w : World) (v userId : JsVal) :
  mutation m = Some op ->
  jobs w = [] ->
  get_prop (credentials (_matrixClient (store w))) "userId" = Normal userId ->
  let n := length (promises w) in
  let w1 := snd (op w) in
  let w2 := run [Respond n (Fulfilled v); Tick; Tick] w1 in
  requests (trace w2)
  = requests (trace w1) ++ refresh_requests m (groupId (store w))
  /\ count_emitted "update" (trace w2) = count_emitted "update" (trace w)
  /\ count_emitted "error" (trace w2) = count_emitted "error" (trace w)
  /\ store w2 = store w
  /\ jobs w2 = [].
Proof.
  intros Hop Hq Hcred n w1 w2. subst n w1 w2. quiescent w Hq.
  assert (Hcount : forall ev acts,
             is_emitted ev <$> acts = const false <$> acts ->
             count_emitted ev (t ++ acts) = count_emitted ev t).
  { intros ev acts H. unfold count_emitted.
    rewrite filter_app, length_app.
    assert (filter (fun a => is_emitted ev a = true) acts = []) as ->;
      [|simpl; lia].
    clear -H. induction acts as [|a acts IH]; [reflexivity|].
    injection H as Ha H. rewrite filter_cons_False by (rewrite Ha; auto).
    auto. }
  destruct (mutation_cases m op Hop)
    as [(r & b & -> & ->)|[(r & b & -> & ->)|[(r & -> & ->)|
        [(u & -> & ->)|[(-> & ->)|[(r & c & -> & ->)|[(u & r & -> & ->)|
        [(r & -> & ->)|[(u & -> & ->)|(b & -> & ->)]]]]]]]]].
  all: eval_op; eval_run ltac:(rewrite ?Hcred); js_eval.
  all: split; [rewrite ?requests_app, <- ?app_assoc; reflexivity|].
  all: repeat split; try reflexivity; apply Hcount; reflexivity.
Qed.

(** [setGroupPublicity] on a client whose [credentials.userId] cannot
    be read: after the backend has fulfilled the publicity request, the
    read throws in the invalidation step, so the flair cache is not
    invalidated, the summary is not fetched again and the returned
    promise is rejected with what the read threw. *)
Theorem setGroupPublicity_without_credentials
    (isPublished : JsVal) (w : World) (v err : JsVal) :
  jobs w = [] ->
  get_prop (credentials (_matrixClient (store w))) "userId" = Throw err ->
  let n := length (promises w) in
  let w1 := snd (setGroupPublicity isPublished w) in
  let w2 := run [Respond n (Fulfilled v); Tick; Tick] w1 in
  trace w2 = trace w1
  /\ promise_state w2 (n + 2) = Some (Done (Rejected err))
  /\ store w2 = store w
  /\ jobs w2 = [].
Proof.
  intros Hq Hcred n w1 w2. subst n w1 w2. quiescent w Hq.
  eval_op. eval_run ltac:(rewrite ?Hcred). js_eval.
  repeat split; reflexivity.
Qed.

End MoreMutations.

(* ================================================================== *)
(** ** More on fetches *)
(* ================================================================== *)

Section MoreFetches.
Context {groups : Groups}.

Ltac unfold_fetches :=
  unfold fetch, _fetchSummary, _fetchRooms, _fetchMembers.

Ltac unfold_callbacks :=
  unfold handle, onSummary, onSummaryFailed, onRooms, onRoomsFailed,
    onMembers, onMembersFailed, onInvited, onInvitedFailed,
    _notifyListeners, emit.

Ltac eval_fetch :=
  match goal with
  | |- context [snd (?f (mk_world ?a ?b ?c ?d ?e))] =>
      js_compute (f (mk_world a b c d e))
        ltac:(unfold registerListener, unregisterListener, emit;
              unfold_fetches)
  end; cbn [fst snd].

Ltac eval_run tac :=
  match goal with
  | |- context [run ?l (mk_world ?a ?b ?c ?d ?e)] =>
      js_compute (run l (mk_world a b c d e))
        ltac:(unfold_callbacks; unfold registerListener, unregisterListener;
              unfold_fetches; tac)
  end.




(** A response without an array under [chunk] cannot be projected,
    whatever the projection functions are. *)
Lemma chunk_must_be_an_array f resp :
  (forall xs, get_prop resp "chunk" <> Normal (JArr xs)) ->
  exists e, chunk_map f resp = Throw e.
Proof.
  intros H. unfold chunk_map.
  destruct (get_prop resp "chunk") as [[]|e]; eauto.
  destruct (H items eq_refl).
Qed.

(** A fetch that completes tells the listeners once: one "update"
    event without arguments, delivered to the registered listeners in
    the order of their registration; nothing else is shown to the
    outside, the list of listeners is as before and no job is left. *)
Theorem completed_fetch_notifies_listeners_once
    (k : Slice) (w : World) (resp v : JsVal) :
  jobs w = [] ->
  project k resp = Normal v ->
  let n := length (promises w) + fetch_offset k in
  let w1 := snd (fetch k w) in
  let w2 := run [Respond n (Fulfilled resp); Tick; Tick] w1 in
  trace w2 = trace w1 ++ Emitted "update" []
                         :: (Notified <$> listeners (store w))
  /\ listeners (store w2) = listeners (store w)
  /\ jobs w2 = [].
Proof.
  intros Hq Hproj n w1 w2. subst n w1 w2. quiescent w Hq.
  apply project_chunk_map in Hproj.
  destruct k; [subst v|destruct Hproj as (l & E & ->)..];
    cbn [fetch fetch_offset];
    eval_fetch; eval_run ltac:(rewrite ?E);
    js_eval; rewrite <- ?app_assoc; repeat split; reflexivity.
Qed.


(** The summary is stored as the backend sends it.  When the backend
    fulfils the summary request with [null] or [undefined], that value
    becomes the summary and the Summary flag is set, and from then on
    [getGroupPublicity] and [isUserPrivileged] throw instead of
    returning. *)
Theorem null_summary_breaks_the_flag_accessors
    (w : World) (resp : JsVal) :
  jobs w = [] ->
  resp = JNull \/ resp = JUndefined ->
  let n := length (promises w) in
  let w2 := run [Respond n (Fulfilled resp); Tick; Tick]
              (snd (_fetchSummary w)) in
  getSummary (store w2) = resp
  /\ isStateReady (store w2) STATE_KEY.Summary = JBool true
  /\ (exists err, getGroupPublicity (store w2) = Throw err)
  /\ (exists err, isUserPrivileged (store w2) = Throw err).
Proof.
  intros Hq Hresp n w2. subst n w2. quiescent w Hq.
  eval_fetch. eval_run idtac. js_eval.
  unfold isStateReady, getGroupPublicity, isUserPrivileged,
    summary_user_field.
  cbn [_ready _summary set_ready set_summary]. rewrite lookup_insert_eq.
  destruct Hresp as [-> | ->]; repeat split; try reflexivity; eexists;
    reflexivity.
Qed.

(** Responses are applied in the order they arrive, not in the order
    of the requests.  A second fetch of a slice, issued while the
    first is in flight, sends its requests again; when the later
    request is answered first and the earlier one afterwards, the
    cache ends with the response to the earlier request. *)
Theorem late_response_overwrites_newer_one
    (k : Slice) (w : World) (older newer v_older v_newer : JsVal) :
  jobs w = [] ->
  project k older = Normal v_older ->
  project k newer = Normal v_newer ->
  let first := length (promises w) + fetch_offset k in
  let second := length (promises w) + (fetch_size k + fetch_offset k) in
  let w1 := snd (fetch k (snd (fetch k w))) in
  let w2 := run [Respond second (Fulfilled newer); Tick; Tick] w1 in
  let w3 := run [Respond first (Fulfilled older); Tick; Tick] w2 in
  requests (trace w1)
  = requests (trace w) ++ fetch_requests k (groupId (store w))
                       ++ fetch_requests k (groupId (store w))
  /\ cached k (store w2) = v_newer
  /\ cached k (store w3) = v_older.
Proof.
  intros Hq H1 H2 first second w1 w2 w3. subst first second w1 w2 w3.
  quiescent w Hq.
  apply project_chunk_map in H1. apply project_chunk_map in H2.
  destruct k;
    [subst v_older v_newer
    |destruct H1 as (l1 & E1 & ->); destruct H2 as (l2 & E2 & ->)..];
    cbn [fetch fetch_offset fetch_size];
    eval_fetch; eval_fetch; eval_run ltac:(rewrite ?E1, ?E2);
    eval_run ltac:(rewrite ?E1, ?E2); js_eval;
    rewrite ?requests_app, <- ?app_assoc;
    repeat split; reflexivity.
Qed.

End MoreFetches.

(* ================================================================== *)
(** ** Projection of the records of a response *)
(* ================================================================== *)

Lemma array_map_Normal f xs ys :
  array_map f xs = Normal ys <-> Forall2 (fun x y => f x = Normal y) xs ys.
Proof.
  revert ys. induction xs as [|x xs IH]; intros ys; simpl.
  - split.
    + intros [= <-]. constructor.
    + intros H. inversion H. reflexivity.
  - split.
    + destruct (f x) as [y|e] eqn:E; [|discriminate].
      destruct (array_map f xs) as [ys'|e]; [|discriminate].
      intros [= <-]. constructor; [exact E|]. apply IH. reflexivity.
    + intros H. inversion H as [|? y ? ys' Hy Hrest]; subst.
      rewrite Hy. apply IH in Hrest. rewrite Hrest. reflexivity.
Qed.


Section Projection.
Context {groups : Groups}.

Lemma project_records k resp xs :
  k <> SSummary ->
  get_prop resp "chunk" = Normal (JArr xs) ->
  project k resp = match array_map (projection k) xs with
                   | Normal ys => Normal (JArr ys)
                   | Throw e => Throw e
                   end.
Proof.
  intros Hk Hchunk. destruct k; try congruence;
    simpl; unfold chunk_map; rewrite Hchunk; reflexivity.
Qed.

(** The rooms, the members and the invited members are the records of
    [chunk], each one projected, in the order of the response: when
    every record projects, the accessor returns an array of the same
    length whose entry at each position is the projection of the
    record at that position, and the flag of the slice is set, also
    for an empty [chunk]. *)
Theorem records_are_projected_in_response_order
    (k : Slice) (w : World) (resp : JsVal) (xs ys : list JsVal) :
  jobs w = [] ->
  k <> SSummary ->
  get_prop resp "chunk" = Normal (JArr xs) ->
  Forall2 (fun x y => projection k x = Normal y) xs ys ->
  let n := length (promises w) + fetch_offset k in
  let w2 := run [Respond n (Fulfilled resp); Tick; Tick]
              (snd (fetch k w)) in
  cached k (store w2) = JArr ys
  /\ length ys = length xs
  /\ (forall i x, xs !! i = Some x ->
        exists y, ys !! i = Some y /\ projection k x = Normal y)
  /\ isStateReady (store w2) (state_key k) = JBool true.
Proof.
  intros Hq Hk Hchunk Hall n w2.
  assert (Hproj : project k resp = Normal (JArr ys)).
  { rewrite (project_records k resp xs Hk Hchunk).
    apply array_map_Normal in Hall. rewrite Hall. reflexivity. }
  destruct (fetch_success k w resp (JArr ys) Hq Hproj) as (Hc & Hr & _).
  split; [exact Hc|]. split; [symmetry; eapply Forall2_length; eauto|].
  split.
  - intros i x Hx.
    destruct (Forall2_lookup_l _ _ _ _ _ Hall Hx) as (y & Hy & Hxy). eauto.
  - unfold isStateReady. subst w2 n. rewrite Hr, lookup_insert_eq.
    reflexivity.
Qed.


End Projection.

(* ================================================================== *)
(** ** Listeners *)
(* ================================================================== *)

Lemma remove_first_app_notin fn (a b : list nat) :
  fn ∉ a -> remove_first fn (a ++ b) = a ++ remove_first fn b.
Proof.
  induction a as [|x a IH]; intros Hn; simpl; [reflexivity|].
  apply not_elem_of_cons in Hn as [Hx Ha].
  destruct (Nat.eqb x fn) eqn:E.
  - apply Nat.eqb_eq in E. congruence.
  - f_equal. apply IH, Ha.
Qed.

Lemma remove_first_notin fn (l : list nat) :
  fn ∉ l -> remove_first fn l = l.
Proof.
  intros H. rewrite <- (app_nil_r l) at 1.
  rewrite remove_first_app_notin by exact H. simpl. apply app_nil_r.
Qed.

Lemma notin_rev (fn : nat) (l : list nat) : fn ∉ l -> fn ∉ rev l.
Proof. rewrite !list_elem_of_In, <- in_rev. auto. Qed.

Lemma remove_last_notin fn (l : list nat) : fn ∉ l -> remove_last fn l = l.
Proof.
  intros H. unfold remove_last.
  rewrite remove_first_notin by (apply notin_rev, H).
  apply rev_involutive.
Qed.

Lemma remove_last_middle fn (l1 l2 : list nat) :
  fn ∉ l2 -> remove_last fn (l1 ++ fn :: l2) = l1 ++ l2.
Proof.
  intros H. unfold remove_last.
  rewrite rev_app_distr. simpl. rewrite <- app_assoc.
  rewrite remove_first_app_notin by (apply notin_rev, H).
  simpl. rewrite Nat.eqb_refl, rev_app_distr, !rev_involutive.
  reflexivity.
Qed.

Lemma remove_last_snoc fn (l : list nat) : remove_last fn (l ++ [fn]) = l.
Proof.
  rewrite remove_last_middle by apply not_elem_of_nil. apply app_nil_r.
Qed.

Lemma count_emitted_app ev t1 t2 :
  count_emitted ev (t1 ++ t2) = count_emitted ev t1 + count_emitted ev t2.
Proof. unfold count_emitted. rewrite filter_app, length_app. reflexivity. Qed.

Lemma count_emitted_listeners ev (l : list nat) :
  count_emitted ev (Notified <$> l) = 0.
Proof.
  rewrite <- (app_nil_r (Notified <$> l)). apply count_emitted_notified.
Qed.

Lemma requests_notified (l : list nat) : requests (Notified <$> l) = [].
Proof. induction l as [|x l IH]; [reflexivity|exact IH]. Qed.

#[local] Arguments remove_last : simpl never.

Section Listeners.
Context {groups : Groups}.

Ltac unfold_fetches :=
  unfold fetch, _fetchSummary, _fetchRooms, _fetchMembers.

Ltac unfold_callbacks :=
  unfold handle, onSummary, onSummaryFailed, onRooms, onRoomsFailed,
    onMembers, onMembersFailed, onInvited, onInvitedFailed,
    _notifyListeners, emit.

(** [unregisterListener fn] touches nothing but the list of listeners:
    it sends nothing, emits nothing, settles nothing and leaves the
    caches and flags alone.  It takes out one registration of [fn],
    the latest one, and does nothing when [fn] is not registered. *)
Theorem unregisterListener_removes_the_latest_registration
    (fn : Callback) (w : World) (l1 l2 : list Callback) :
  let w' := snd (unregisterListener fn w) in
  fst (unregisterListener fn w) = Normal JUndefined
  /\ trace w' = trace w
  /\ promises w' = promises w
  /\ jobs w' = jobs w
  /\ (forall k, cached k (store w') = cached k (store w))
  /\ _ready (store w') = _ready (store w)
  /\ (fn ∉ listeners (store w) -> listeners (store w') = listeners (store w))
  /\ (listeners (store w) = l1 ++ fn :: l2 -> fn ∉ l2 ->
      listeners (store w') = l1 ++ l2).
Proof.
  cbv zeta. unfold unregisterListener, bind, assign, ret. simpl.
  do 4 (split; [reflexivity|]).
  split; [intros []; reflexivity|]. split; [reflexivity|]. split.
  - apply remove_last_notin.
  - intros -> H. apply remove_last_middle, H.
Qed.

(** What one registration adds: the callback at the end of the list of
    listeners, one "update" event, the four requests for the group of
    the store, and twelve promises; the queue of jobs is as before. *)
Lemma registerListener_adds fn w :
  let w' := invoke (RegisterListener fn) w in
  listeners (store w') = listeners (store w) ++ [fn]
  /\ groupId (store w') = groupId (store w)
  /\ requests (trace w')
     = requests (trace w) ++ initial_requests (groupId (store w))
  /\ count_emitted "update" (trace w')
     = count_emitted "update" (trace w) + 1
  /\ length (promises w') = length (promises w) + 12
  /\ jobs w' = jobs w.
Proof.
  cbv zeta. in_mk_world w. cbn [invoke].
  js_compute (registerListener fn (mk_world s ps [] js t))
    ltac:(unfold registerListener, emit; unfold_fetches).
  cbn [snd]. js_eval.
  rewrite promises_mk, length_app.
  change (Emitted "update" [] :: ?l) with ([Emitted "update" []] ++ l).
  rewrite !requests_app, !count_emitted_app, requests_notified,
    count_emitted_listeners.
  repeat split; try reflexivity; simpl; lia.
Qed.

(** Registrations are not merged.  Registering the callbacks [fns] one
    after the other appends them all to the listeners, also those that
    were registered already, and every registration emits its own
    "update" and sends the four requests again. *)
Theorem every_registration_fetches_again
    (fns : list Callback) (w : World) :
  let w' := run (map (fun fn => Invoke (RegisterListener fn)) fns) w in
  listeners (store w') = listeners (store w) ++ fns
  /\ requests (trace w')
     = requests (trace w)
       ++ concat (map (fun _ => initial_requests (groupId (store w))) fns)
  /\ count_emitted "update" (trace w')
     = count_emitted "update" (trace w) + length fns
  /\ length (promises w') = length (promises w) + 12 * length fns
  /\ jobs w' = jobs w.
Proof.
  cbv zeta. revert w. induction fns as [|fn fns IH]; intros w.
  - simpl. rewrite !app_nil_r. repeat split; lia.
  - cbn [map run step].
    destruct (registerListener_adds fn w) as (Hl & Hg & Hr & Hc & Hp & Hj).
    destruct (IH (invoke (RegisterListener fn) w))
      as (Hl' & Hr' & Hc' & Hp' & Hj').
    rewrite Hl', Hr', Hc', Hp', Hj', Hl, Hg, Hr, Hc, Hp, Hj.
    cbn [concat map length]. rewrite <- !app_assoc.
    repeat split; try reflexivity; lia.
Qed.

(** Unregistering cancels nothing.  After a callback has been
    registered and unregistered again, the listeners are as before the
    registration, and the requests of the registration are still in
    flight: when one of them is answered, the cache is written, the
    flag is set and an "update" is emitted to the listeners that
    remain. *)
Theorem unregistering_does_not_cancel_the_fetches
    (fn : Callback) (k : Slice) (w : World) (resp v : JsVal) :
  jobs w = [] ->
  project k resp = Normal v ->
  let n := length (promises w) + initial_offset k in
  let w1 := run [Invoke (RegisterListener fn);
                 Invoke (UnregisterListener fn)] w in
  let w2 := run [Respond n (Fulfilled resp); Tick; Tick] w1 in
  listeners (store w1) = listeners (store w)
  /\ cached k (store w2) = v
  /\ isStateReady (store w2) (state_key k) = JBool true
  /\ trace w2 = trace w1 ++ Emitted "update" []
                            :: (Notified <$> listeners (store w)).
Proof.
  intros Hq Hproj n w1 w2. subst n w1 w2. quiescent w Hq.
  apply project_chunk_map in Hproj.
  match goal with
  | |- context [run ?l (mk_world ?a ?b ?c ?d ?e)] =>
      js_compute (run l (mk_world a b c d e))
        ltac:(unfold registerListener, unregisterListener, emit;
              unfold_fetches; rewrite ?remove_last_snoc)
  end.
  destruct k; [subst v|destruct Hproj as (l & E & ->)..];
    cbn [initial_offset];
    match goal with
    | |- context [run ?l (mk_world ?a ?b ?c ?d ?e)] =>
        js_compute (run l (mk_world a b c d e))
          ltac:(unfold_callbacks; rewrite ?E)
    end;
    js_eval; repeat (rewrite <- ?app_assoc; cbn [app]);
    unfold isStateReady;
    cbn [_ready set_ready set_summary set_rooms set_members
           set_invitedMembers set_listeners state_key];
    rewrite lookup_insert_eq; repeat split; reflexivity.
Qed.

End Listeners.

(* ================================================================== *)
(** ** What holds along every run *)
(* ================================================================== *)

Lemma calls_for_notified g (l : list nat) : calls_for g (Notified <$> l).
Proof. apply Forall_fmap, Forall_true. intros x. exact I. Qed.

Lemma calls_for_requests g t :
  calls_for g t -> Forall (fun r => request_gid r = g) (requests t).
Proof.
  unfold calls_for, requests.
  induction 1 as [|a t Ha _ IH]; [constructor|].
  destruct a; simpl; auto.
Qed.

Lemma settle_trace d o w : trace (settle d o w) = trace w.
Proof.
  unfold settle. destruct (promises w !! d) as [[og [rs|s]]|]; reflexivity.
Qed.

Lemma respond_trace p o w : trace (respond p o w) = trace w.
Proof.
  unfold respond.
  destruct (promises w !! p) as [[[r|] [rs|s]]|];
    auto using settle_trace.
Qed.

Ltac solve_calls :=
  unfold calls_for;
  repeat first
    [ apply calls_for_notified
    | apply Forall_app; split
    | constructor; [simpl; auto|]
    | constructor ].

Ltac solve_sends :=
  rewrite <- ?app_assoc;
  first
    [ exists []; split; [symmetry; apply app_nil_r|constructor]
    | eexists; split; [reflexivity|solve_calls] ].

Section Runs.
Context {groups : Groups}.

Ltac unfold_fetches :=
  unfold fetch, _fetchSummary, _fetchRooms, _fetchMembers.

Ltac unfold_callbacks :=
  unfold handle, onSummary, onSummaryFailed, onRooms, onRoomsFailed,
    onMembers, onMembersFailed, onInvited, onInvitedFailed,
    invalidateFlair, _notifyListeners, emit.

Ltac unfold_mutations :=
  unfold addRoomToGroup, updateGroupRoomVisibility, removeRoomFromGroup,
    inviteUserToGroup, acceptGroupInvite, addRoomToGroupSummary,
    addUserToGroupSummary, removeRoomFromGroupSummary,
    removeUserFromGroupSummary, setGroupPublicity.

Ltac eval_handle tac :=
  match goal with
  | |- context [snd (?f (mk_world ?a ?b ?c ?d ?e))] =>
      js_compute (f (mk_world a b c d e))
        ltac:(unfold_callbacks; unfold registerListener, unregisterListener;
              unfold_mutations; unfold_fetches; tac)
  end; cbn [fst snd]; js_eval.

Lemma handle_sends h arg w :
  exists acts,
    trace (snd (handle h arg w)) = trace w ++ acts
    /\ calls_for (groupId (store w)) acts.
Proof.
  in_mk_world w.
  destruct h.
  - destruct (chunk_map groupMemberFromApiObject arg) eqn:E;
      eval_handle ltac:(rewrite ?E); solve_sends.
  - eval_handle idtac; solve_sends.
  - destruct (chunk_map groupMemberFromApiObject arg) eqn:E;
      eval_handle ltac:(rewrite ?E); solve_sends.
  - destruct (get_prop arg "httpStatus") as [st|] eqn:E1;
      [destruct (strict_eq_num st 403) eqn:E2|];
      eval_handle ltac:(rewrite ?E1, ?E2); solve_sends.
  - eval_handle idtac; solve_sends.
  - eval_handle idtac; solve_sends.
  - destruct (chunk_map groupRoomFromApiObject arg) eqn:E;
      eval_handle ltac:(rewrite ?E); solve_sends.
  - eval_handle idtac; solve_sends.
  - eval_handle idtac; solve_sends.
  - eval_handle idtac; solve_sends.
  - eval_handle idtac; solve_sends.
  - destruct (get_prop (credentials (_matrixClient s)) "userId") eqn:E;
      eval_handle ltac:(rewrite ?E); solve_sends.
Qed.

Lemma invoke_sends m w :
  exists acts,
    trace (invoke m w) = trace w ++ acts
    /\ calls_for (groupId (store w)) acts.
Proof.
  in_mk_world w.
  destruct m; cbn [invoke mutation]; eval_handle idtac; solve_sends.
Qed.

Lemma step_sends i w :
  exists acts,
    trace (step i w) = trace w ++ acts
    /\ calls_for (groupId (store w)) acts.
Proof.
  destruct i as [m|p o|]; cbn [step].
  - apply invoke_sends.
  - exists []. rewrite respond_trace, app_nil_r. split; [reflexivity|].
    constructor.
  - unfold tick. destruct (jobs w) as [|j js].
    + exists []. rewrite app_nil_r. split; [reflexivity|constructor].
    + unfold run_job.
      destruct (reaction_handler (job_reaction j) (job_arg j)) as [h|].
      * destruct (handle_sends h (settled_value (job_arg j))
                    (with_jobs js w)) as (acts & Ht & Hc).
        exists acts. split; [|exact Hc].
        destruct (handle h (settled_value (job_arg j)) (with_jobs js w))
          as [[v|e] w1]; rewrite settle_trace; exact Ht.
      * exists []. rewrite settle_trace, app_nil_r.
        split; [reflexivity|constructor].
Qed.

Lemma store_after_identity h arg s :
  groupId (store_after h arg s) = groupId s
  /\ _matrixClient (store_after h arg s) = _matrixClient s.
Proof.
  destruct h; simpl;
    try destruct (chunk_map groupMemberFromApiObject arg);
    try destruct (chunk_map groupRoomFromApiObject arg);
    split; reflexivity.
Qed.

Lemma step_identity i w :
  groupId (store (step i w)) = groupId (store w)
  /\ _matrixClient (store (step i w)) = _matrixClient (store w).
Proof.
  destruct i as [m|p o|]; cbn [step].
  - pose proof (mutation_store m) as Hm.
    destruct m; cbn [invoke mutation];
      rewrite ?registerListener_store, ?(Hm _ eq_refl);
      split; reflexivity.
  - rewrite respond_store. split; reflexivity.
  - rewrite tick_store. destruct (jobs w) as [|j js]; [split; reflexivity|].
    destruct (reaction_handler (job_reaction j) (job_arg j));
      [apply store_after_identity|split; reflexivity].
Qed.

Lemma run_sends inputs w :
  groupId (store (run inputs w)) = groupId (store w)
  /\ _matrixClient (store (run inputs w)) = _matrixClient (store w)
  /\ exists acts,
       trace (run inputs w) = trace w ++ acts
       /\ calls_for (groupId (store w)) acts.
Proof.
  revert w. induction inputs as [|i rest IH]; intros w; cbn [run].
  - split; [reflexivity|]. split; [reflexivity|].
    exists []. rewrite app_nil_r. split; [reflexivity|constructor].
  - destruct (IH (step i w)) as (Hg & Hc & acts2 & Ht2 & Hf2).
    destruct (step_identity i w) as [Hg1 Hc1].
    destruct (step_sends i w) as (acts1 & Ht1 & Hf1).
    split; [congruence|]. split; [congruence|].
    exists (acts1 ++ acts2). rewrite Ht2, Ht1, app_assoc.
    split; [reflexivity|].
    apply Forall_app. split; [exact Hf1|]. rewrite <- Hg1. exact Hf2.
Qed.

(** A store speaks for one group.  Through every run from its
    construction, the store keeps the group id and the client it was
    constructed with, and every request it sends to the backend has
    that group id as its first argument. *)
Theorem every_request_is_about_the_group_of_the_store
    (matrixClient : MatrixClient) (gid : JsVal) (s0 : GroupStore)
    (inputs : list Input) :
  constructor matrixClient gid = Normal s0 ->
  let w := run inputs (new_world s0) in
  groupId (store w) = gid
  /\ _matrixClient (store w) = matrixClient
  /\ Forall (fun r => request_gid r = gid) (requests (trace w)).
Proof.
  intros Hnew w. subst w.
  assert (Hs : groupId s0 = gid /\ _matrixClient s0 = matrixClient).
  { unfold constructor in Hnew.
    destruct (negb (truthy gid)); [discriminate|].
    injection Hnew as <-. split; reflexivity. }
  destruct Hs as [Hg Hc].
  destruct (run_sends inputs (new_world s0)) as (H1 & H2 & acts & Ht & Hf).
  cbn [store new_world trace] in *. rewrite app_nil_l in Ht.
  split; [congruence|]. split; [congruence|].
  rewrite Ht. apply calls_for_requests. rewrite <- Hg. exact Hf.
Qed.

(** A fetch that completes touches its own slice only: at a step where
    a fetch of [k] completes, the cache and the flag of every other
    slice are as before. *)
Theorem a_completed_fetch_touches_only_its_slice
    (k k' : Slice) (i : Input) (w : World) (v : JsVal) :
  completes k i w = Some v ->
  k' <> k ->
  cached k (store (step i w)) = v
  /\ cached k' (store (step i w)) = cached k' (store w)
  /\ _ready (store (step i w)) !! state_key k'
     = _ready (store w) !! state_key k'.
Proof.
  intros Hc Hne.
  assert (Hnone : completes k' i w = None).
  { destruct (step_ready_cases i w) as [[_ Hn]|(k0 & v0 & H0 & Hn & _)].
    - apply Hn.
    - destruct (decide (k = k0)) as [<-|Hk0].
      + apply Hn, Hne.
      + rewrite (Hn k Hk0) in Hc. discriminate. }
  rewrite !step_cached, step_ready, Hc, Hnone. repeat split; reflexivity.
Qed.

End Runs.

(* ================================================================== *)
(** ** When the listeners are told *)
(* ================================================================== *)

Lemma count_emitted_cons ev a t :
  count_emitted ev (a :: t)
  = (if is_emitted ev a then 1 else 0) + count_emitted ev t.
Proof.
  unfold count_emitted. destruct (is_emitted ev a) eqn:E.
  - rewrite filter_cons_True by exact E. reflexivity.
  - rewrite filter_cons_False by (rewrite E; discriminate). reflexivity.
Qed.

Section Updates.
Context {groups : Groups}.

Ltac unfold_fetches :=
  unfold fetch, _fetchSummary, _fetchRooms, _fetchMembers.

Ltac unfold_callbacks :=
  unfold handle, onSummary, onSummaryFailed, onRooms, onRoomsFailed,
    onMembers, onMembersFailed, onInvited, onInvitedFailed,
    invalidateFlair, _notifyListeners, emit.

Ltac unfold_mutations :=
  unfold addRoomToGroup, updateGroupRoomVisibility, removeRoomFromGroup,
    inviteUserToGroup, acceptGroupInvite, addRoomToGroupSummary,
    addUserToGroupSummary, removeRoomFromGroupSummary,
    removeUserFromGroupSummary, setGroupPublicity.

Ltac eval_handle tac :=
  match goal with
  | |- context [snd (?f (mk_world ?a ?b ?c ?d ?e))] =>
      js_compute (f (mk_world a b c d e))
        ltac:(unfold_callbacks; unfold registerListener, unregisterListener;
              unfold_mutations; unfold_fetches; tac)
  end; cbn [fst snd]; js_eval.

Ltac count_updates :=
  repeat first
    [ rewrite count_emitted_app
    | rewrite count_emitted_cons
    | rewrite count_emitted_listeners ];
  change (count_emitted "update" []) with 0;
  simpl; lia.

(** The "update" events a callback emits: one when it is the success
    callback of a slice and its argument projects, none otherwise. *)
Lemma handle_updates h arg w :
  count_emitted "update" (trace (snd (handle h arg w)))
  = count_emitted "update" (trace w)
    + length (omap (fun k => if decide (Some h = Some (on_success k))
                             then match project k arg with
                                  | Normal v => Some v
                                  | Throw _ => None
                                  end
                             else None)
                [SSummary; SRooms; SMembers; SInvited]).
Proof.
  in_mk_world w.
  destruct h; cbn [omap list_omap project on_success];
    repeat (case_decide; try discriminate; try congruence).
  - destruct (chunk_map groupMemberFromApiObject arg) eqn:E;
      eval_handle ltac:(rewrite ?E); count_updates.
  - eval_handle idtac; count_updates.
  - destruct (chunk_map groupMemberFromApiObject arg) eqn:E;
      eval_handle ltac:(rewrite ?E); count_updates.
  - destruct (get_prop arg "httpStatus") as [st|] eqn:E1;
      [destruct (strict_eq_num st 403) eqn:E2|];
      eval_handle ltac:(rewrite ?E1, ?E2); count_updates.
  - eval_handle idtac; count_updates.
  - eval_handle idtac; count_updates.
  - destruct (chunk_map groupRoomFromApiObject arg) eqn:E;
      eval_handle ltac:(rewrite ?E); count_updates.
  - eval_handle idtac; count_updates.
  - eval_handle idtac; count_updates.
  - eval_handle idtac; count_updates.
  - eval_handle idtac; count_updates.
  - destruct (get_prop (credentials (_matrixClient s)) "userId") eqn:E;
      eval_handle ltac:(rewrite ?E); count_updates.
Qed.

Lemma invoke_updates m w :
  count_emitted "update" (trace (invoke m w))
  = count_emitted "update" (trace w)
    + match m with RegisterListener _ => 1 | _ => 0 end.
Proof.
  in_mk_world w.
  destruct m; cbn [invoke mutation]; eval_handle idtac; count_updates.
Qed.

Lemma step_updates i w :
  count_emitted "update" (trace (step i w))
  = count_emitted "update" (trace w) + updates_at i w.
Proof.
  destruct i as [m|p o|]; cbn [step].
  - rewrite invoke_updates. destruct m; reflexivity.
  - rewrite respond_trace. simpl. lia.
  - unfold updates_at, completes, tick.
    destruct (jobs w) as [|j js]; [simpl; lia|].
    unfold run_job.
    destruct (reaction_handler (job_reaction j) (job_arg j)) as [h|].
    + pose proof (handle_updates h (settled_value (job_arg j))
                    (with_jobs js w)) as H.
      destruct (handle h (settled_value (job_arg j)) (with_jobs js w))
        as [[v|e] w1]; rewrite settle_trace; exact H.
    + rewrite settle_trace. cbn [omap list_omap].
      repeat (case_decide; try discriminate). simpl. lia.
Qed.

(** The listeners are told when there is a reason, and only then.
    Along every run, the number of "update" events grows by one at
    each registration of a listener and at each step at which a fetch
    completes, and at no other step: failed fetches, mutations and
    their answers, and unregistrations emit none. *)
Theorem updates_are_emitted_for_registrations_and_completed_fetches
    (inputs : list Input) (w : World) :
  count_emitted "update" (trace (run inputs w))
  = count_emitted "update" (trace w) + updates_along inputs w.
Proof.
  revert w. induction inputs as [|i rest IH]; intros w;
    cbn [run updates_along].
  - lia.
  - rewrite IH, step_updates. lia.
Qed.

End Updates.

(* ================================================================== *)
(** ** A rejection that carries no reason *)
(* ================================================================== *)

Section NoReason.
Context {groups : Groups}.

Ltac unfold_fetches :=
  unfold fetch, _fetchSummary, _fetchRooms, _fetchMembers.

Ltac unfold_callbacks :=
  unfold handle, onSummary, onSummaryFailed, onRooms, onRoomsFailed,
    onMembers, onMembersFailed, onInvited, onInvitedFailed,
    _notifyListeners, emit.

(** The failure callback of the invited fetch reads [err.httpStatus]
    before anything else.  When the request is rejected with a reason
    that has no properties ([null] or [undefined]) that read throws
    inside the callback: nothing is logged, no "error" event is emitted,
    the store is unchanged, and the promise of the [catch] ends rejected
    with the error of the read, which nobody handles.  The members
    fetch, rejected with the same reason, does report it. *)
Theorem invited_fetch_rejected_without_a_reason
    (w : World) (err thrown : JsVal) :
  jobs w = [] ->
  get_prop err "httpStatus" = Throw thrown ->
  let n := length (promises w) in
  let w1 := snd (_fetchMembers w) in
  let invited := run [Respond (n + 3) (Rejected err); Tick; Tick] w1 in
  let members := run [Respond n (Rejected err); Tick; Tick] w1 in
  trace invited = trace w1
  /\ store invited = store w
  /\ promise_state invited (n + 5) = Some (Done (Rejected thrown))
  /\ jobs invited = []
  /\ trace members = trace w1 ++ failure_report SMembers (store w) err
  /\ promise_state members (n + 2) = Some (Done (Fulfilled JUndefined)).
Proof.
  intros Hq Hstatus n w1 invited members.
  subst n w1 invited members. quiescent w Hq.
  js_compute (_fetchMembers (mk_world s ps [] [] t)) ltac:(unfold_fetches).
  cbn [snd].
  repeat match goal with
  | |- context [run ?l (mk_world ?a ?b ?c ?d ?e)] =>
      js_compute (run l (mk_world a b c d e))
        ltac:(unfold_callbacks; rewrite ?Hstatus)
  end.
  js_eval. rewrite <- ?app_assoc.
  repeat split; reflexivity.
Qed.

End NoReason.

(* ================================================================== *)
(** ** The theorems at concrete inputs *)
(* ================================================================== *)

#[local] Existing Instance example_groups.




Lemma slices_hold_the_latest_fetched_value_witness :
  let w1 := snd (fetch SRooms example_world) in
  let ok := run
              [Respond 0 (Fulfilled example_rooms_response); Tick; Tick]
              w1 in
  let ko := run
              [Respond 0 (Rejected (http_error 500)); Tick; Tick] w1 in
  jobs example_world = []
  /\ project SRooms example_rooms_response
     = Normal example_rooms
  /\ constructor example_client (JStr "+test:example.org")
     = Normal example_store
  /\ cached SRooms (store ok) = example_rooms
  /\ isStateReady (store ok) STATE_KEY.GroupRooms = JBool true
  /\ cached SRooms (store ko) = JArr []
  /\ _ready (store ko) = ∅.
Proof.
  cbv zeta.
  split; [reflexivity|]. split; [reflexivity|]. split; [reflexivity|].
  pose proof (slices_hold_the_latest_fetched_value
                SRooms example_world
                example_rooms_response example_rooms (http_error 500)
                example_client (JStr "+test:example.org") example_store []
                eq_refl eq_refl eq_refl) as H.
  cbv zeta in H. destruct H as ((H1 & H2) & (H3 & H4) & _).
  split; [exact H1|]. split; [exact H2|]. split; [exact H3|exact H4].
Defined.

Lemma readiness_is_set_by_fetches_and_never_reset_witness :
  constructor example_client (JStr "+test:example.org") = Normal example_store
  /\ _ready (store example_loaded_world) !! "Summary" = Some (JBool true)
  /\ _ready (store (step
                      (Respond 3 (Rejected (http_error 500)))
                      example_loaded_world)) !! "Summary"
     = Some (JBool true)
  /\ _ready (store (run
                      [Respond 3 (Rejected (http_error 500)); Tick; Tick;
                       Invoke (UnregisterListener 0)]
                      example_loaded_world)) !! "Summary"
     = Some (JBool true).
Proof.
  split; [reflexivity|]. split; [vm_compute; reflexivity|].
  pose proof (readiness_is_set_by_fetches_and_never_reset
                SSummary "Summary"
                example_client (JStr "+test:example.org") example_store
                [] [Respond 3 (Rejected (http_error 500)); Tick; Tick;
                    Invoke (UnregisterListener 0)]
                (Respond 3 (Rejected (http_error 500)))
                example_loaded_world example_world eq_refl) as H.
  assert (Hset : _ready (store example_loaded_world) !! "Summary"
                 = Some (JBool true)) by (vm_compute; reflexivity).
  destruct (H Hset) as (_ & _ & H1 & H2).
  split; [exact H1|exact H2].
Defined.

Lemma removeRoomFromGroup_refreshes_after_success_witness :
  let w1 := snd (removeRoomFromGroup
                   example_room_id example_world) in
  let failed := run
                  [Respond 0 (Rejected (http_error 500)); Tick; Tick] w1 in
  let refreshed := run
                     [Respond 0 (Fulfilled JUndefined); Tick; Tick] w1 in
  jobs example_world = []
  /\ trace failed = trace w1
  /\ promise_state failed 2 = Some (Done (Rejected (http_error 500)))
  /\ trace refreshed
     = trace w1
       ++ [BackendCall (Client.getGroupSummary (JStr "+test:example.org")) 3;
           BackendCall (Client.getGroupRooms (JStr "+test:example.org")) 6].
Proof.
  cbv zeta. split; [reflexivity|].
  pose proof (removeRoomFromGroup_refreshes_after_success
                example_room_id example_world
                JUndefined (http_error 500) eq_refl) as H.
  cbv zeta in H.
  destruct H as (_ & _ & _ & _ & H1 & H2 & _ & H3 & H4 & _).
  split; [exact H3|]. split; [exact H4|].
  etransitivity; [exact H2|]. rewrite H1, <- app_assoc. reflexivity.
Defined.

Lemma setGroupPublicity_invalidates_before_refresh_witness :
  let w1 := snd (setGroupPublicity
                   (JBool true) example_world) in
  let failed := run
                  [Respond 0 (Rejected (http_error 500)); Tick; Tick] w1 in
  let refreshed := run
                     [Respond 0 (Fulfilled JUndefined); Tick; Tick] w1 in
  jobs example_world = []
  /\ get_prop (credentials (_matrixClient (store example_world))) "userId"
     = Normal (JStr "@me:example.org")
  /\ trace failed = trace w1
  /\ trace refreshed
     = trace w1
       ++ [FlairInvalidated (JStr "@me:example.org");
           BackendCall (Client.getGroupSummary (JStr "+test:example.org")) 3].
Proof.
  cbv zeta. split; [reflexivity|]. split; [reflexivity|].
  pose proof (setGroupPublicity_invalidates_before_refresh
                (JBool true) example_world
                (JStr "@me:example.org") JUndefined (http_error 500)
                eq_refl eq_refl) as H.
  cbv zeta in H.
  destruct H as (_ & _ & _ & _ & H1 & H2 & H3 & _).
  split; [exact H3|].
  etransitivity; [exact H2|]. rewrite H1, <- app_assoc. reflexivity.
Defined.

(** C9, as stated, fails.  The summary [example_summary] has a [user]
    without [is_publicised]; once it is loaded, [getGroupPublicity]
    returns [undefined], which is not [null]. *)
Lemma publicity_of_absent_field_counterexample :
  let s := store example_loaded_world in
  getSummary s = example_summary
  /\ get_prop example_summary "user"
     = Normal (JObj [("is_privileged", JBool true)])
  /\ assoc "is_publicised" [("is_privileged", JBool true)] = None
  /\ isStateReady s STATE_KEY.Summary = JBool true
  /\ getGroupPublicity s = Normal JUndefined
  /\ getGroupPublicity s <> Normal JNull.
Proof.
  vm_compute. repeat split; discriminate.
Qed.

Lemma publicity_and_privilege_read_the_summary_user_witness :
  let s := store example_loaded_world in
  let ufs := [("is_privileged", JBool true)] in
  constructor example_client (JStr "+test:example.org") = Normal example_store
  /\ _summary s = JObj [("user", JObj ufs)]
  /\ assoc "user" [("user", JObj ufs)] = Some (JObj ufs)
  /\ getGroupPublicity s = Normal JUndefined
  /\ isUserPrivileged s = Normal (JBool true)
  /\ getGroupPublicity example_store = Normal JNull.
Proof.
  cbv zeta. split; [reflexivity|]. split; [vm_compute; reflexivity|].
  split; [reflexivity|].
  assert (Hsum : _summary (store example_loaded_world)
                 = JObj [("user", JObj [("is_privileged", JBool true)])])
    by (vm_compute; reflexivity).
  pose proof (publicity_and_privilege_read_the_summary_user
                (store example_loaded_world)
                [("user", JObj [("is_privileged", JBool true)])]
                [("is_privileged", JBool true)]
                example_client (JStr "+test:example.org") example_store
                eq_refl Hsum) as H.
  destruct H as ((H0 & _) & _ & H).
  destruct (H eq_refl) as (H1 & H2).
  split; [exact H1|]. split; [exact H2|exact H0].
Defined.

(** C10, as stated, fails for a key outside the four state keys.
    "toString" is none of the state keys, and on the store as
    constructed, whose [_ready] is the empty object,
    [isStateReady("toString")] is the method that every object
    inherits, which is not [undefined]; [isStateReady("constructor")]
    is the function [Object]. *)
Lemma isStateReady_of_inherited_name_counterexample :
  constructor example_client (JStr "+test:example.org") = Normal example_store
  /\ (forall k, "toString" <> state_key k)
  /\ isStateReady example_store "toString" = builtin "toString" 0
  /\ isStateReady example_store "toString" <> JUndefined
  /\ isStateReady example_store "constructor" = builtin "Object" 1.
Proof.
  split; [reflexivity|]. split; [intros []; discriminate|].
  vm_compute. repeat split; discriminate.
Qed.

Lemma isStateReady_is_undefined_until_fetched_witness :
  let w := run
             [Invoke (RegisterListener 0);
              Respond 3 (Rejected (http_error 500)); Tick; Tick]
             example_world in
  constructor example_client (JStr "+test:example.org") = Normal example_store
  /\ isStateReady (store w) STATE_KEY.GroupRooms = JUndefined
  /\ isStateReady (store w) "Rooms" = JUndefined
  /\ isStateReady (store w) "toString" = builtin "toString" 0
  /\ isStateReady (store w) STATE_KEY.GroupRooms <> JBool false.
Proof.
  cbv zeta. split; [reflexivity|].
  pose proof (isStateReady_is_undefined_until_fetched
                SRooms "Rooms"
                example_client (JStr "+test:example.org") example_store
                [Invoke (RegisterListener 0);
                 Respond 3 (Rejected (http_error 500)); Tick; Tick]
                eq_refl) as H.
  pose proof (isStateReady_is_undefined_until_fetched
                SRooms "toString"
                example_client (JStr "+test:example.org") example_store
                [Invoke (RegisterListener 0);
                 Respond 3 (Rejected (http_error 500)); Tick; Tick]
                eq_refl) as H'.
  cbv zeta in H, H'.
  destruct H as (H1 & _ & H3 & _). destruct H' as (_ & H2 & _).
  assert (Hu : isStateReady
                 (store (run
                           [Invoke (RegisterListener 0);
                            Respond 3 (Rejected (http_error 500)); Tick; Tick]
                           (new_world example_store)))
                 STATE_KEY.GroupRooms = JUndefined)
    by (apply H1; vm_compute; reflexivity).
  split; [exact Hu|]. split; [|split].
  - apply H3; [intros []; vm_compute; discriminate|reflexivity].
  - apply H2. intros []; vm_compute; discriminate.
  - change example_world with (new_world example_store).
    rewrite Hu. discriminate.
Defined.

(** The scenario of the spec: a store for "+test:example.org", a
    listener registered, the summary answered with a publicised user.
    The listener is told twice and [getGroupPublicity] is [true]. *)
Example scenario_summary_loaded :
  let summary := JObj [("user", JObj [("is_publicised", JBool true)])] in
  let w := run [Invoke (RegisterListener 0); Respond 0 (Fulfilled summary);
                Tick; Tick]
             example_world in
  getGroupPublicity (store w) = Normal (JBool true)
  /\ count_emitted "update" (trace w) = 2
  /\ trace w
     = [Emitted "update" []; Notified 0;
        BackendCall (Client.getGroupSummary (JStr "+test:example.org")) 0;
        BackendCall (Client.getGroupRooms (JStr "+test:example.org")) 3;
        BackendCall (Client.getGroupUsers (JStr "+test:example.org")) 6;
        BackendCall
          (Client.getGroupInvitedUsers (JStr "+test:example.org")) 9;
        Emitted "update" []; Notified 0].
Proof. vm_compute. repeat split. Qed.

(** The scenario of the spec: [addRoomToGroup] succeeds on the
    backend, the rooms are fetched again and [getGroupRooms] has the
    projection of every entry of the response, in order. *)
Example scenario_room_added :
  let response :=
    JObj [("chunk", JArr [JObj [("room_id", JStr "!a:example.org")];
                          JObj [("room_id", example_room_id)]])] in
  let w := run [Invoke (AddRoomToGroup example_room_id (JBool false));
                Respond 0 (Fulfilled JUndefined); Tick;
                Respond 2 (Fulfilled response); Tick; Tick]
             example_world in
  getGroupRooms (store w)
  = JArr [JObj [("roomId", JStr "!a:example.org")];
          JObj [("roomId", example_room_id)]]
  /\ isStateReady (store w) STATE_KEY.GroupRooms = JBool true
  /\ promise_state w 1 = Some (Done (Fulfilled JUndefined)).
Proof. vm_compute. repeat split. Qed.

(** *** More properties at concrete inputs *)

Lemma mutation_failure_rejects_the_signal_witness :
  let op := inviteUserToGroup (JStr "@you:example.org") in
  let w2 := run [Respond 0 (Rejected (http_error 403)); Tick; Tick]
              (snd (op example_world)) in
  mutation (InviteUserToGroup (JStr "@you:example.org")) = Some op
  /\ jobs example_world = []
  /\ trace w2
     = [BackendCall (Client.inviteUserToGroup (JStr "+test:example.org")
                       (JStr "@you:example.org")) 0]
  /\ promise_state w2 1 = Some (Done (Rejected (http_error 403))).
Proof.
  cbv zeta. split; [reflexivity|]. split; [reflexivity|].
  pose proof (mutation_failure_rejects_the_signal
                (InviteUserToGroup (JStr "@you:example.org")) _
                example_world (http_error 403) eq_refl eq_refl) as H.
  cbv zeta in H. destruct H as (_ & (req & Hreq & Ht) & _ & _ & Ht2 & _ & Hp & _).
  injection Hreq as <-.
  split; [exact (eq_trans Ht2 Ht)|exact Hp].
Defined.

Lemma mutation_success_issues_its_refreshes_witness :
  let w1 := snd (acceptGroupInvite example_world) in
  let w2 := run [Respond 0 (Fulfilled JUndefined); Tick; Tick] w1 in
  mutation AcceptGroupInvite = Some acceptGroupInvite
  /\ jobs example_world = []
  /\ get_prop (credentials (_matrixClient (store example_world))) "userId"
     = Normal (JStr "@me:example.org")
  /\ requests (trace w2)
     = [Client.acceptGroupInvite (JStr "+test:example.org");
        Client.getGroupRooms (JStr "+test:example.org");
        Client.getGroupUsers (JStr "+test:example.org");
        Client.getGroupInvitedUsers (JStr "+test:example.org")].
Proof.
  cbv zeta. split; [reflexivity|]. split; [reflexivity|].
  split; [reflexivity|].
  pose proof (mutation_success_issues_its_refreshes AcceptGroupInvite _
                example_world JUndefined (JStr "@me:example.org")
                eq_refl eq_refl eq_refl) as H.
  cbv zeta in H. destruct H as (H & _). exact H.
Defined.

Lemma setGroupPublicity_without_credentials_witness :
  let w1 := snd (setGroupPublicity (JBool true) example_anonymous_world) in
  let w2 := run [Respond 0 (Fulfilled JUndefined); Tick; Tick] w1 in
  jobs example_anonymous_world = []
  /\ get_prop (credentials (_matrixClient (store example_anonymous_world)))
       "userId"
     = Throw (TypeError "Cannot read property 'userId'")
  /\ trace w2 = trace w1
  /\ promise_state w2 2
     = Some (Done (Rejected (TypeError "Cannot read property 'userId'"))).
Proof.
  cbv zeta. split; [reflexivity|]. split; [reflexivity|].
  pose proof (setGroupPublicity_without_credentials (JBool true)
                example_anonymous_world JUndefined
                (TypeError "Cannot read property 'userId'")
                eq_refl eq_refl) as H.
  cbv zeta in H. destruct H as (H1 & H2 & _). split; assumption.
Defined.



Lemma completed_fetch_notifies_listeners_once_witness :
  let w1 := snd (fetch SRooms example_listening_world) in
  let w2 := run [Respond 0 (Fulfilled example_rooms_response); Tick; Tick]
              w1 in
  jobs example_listening_world = []
  /\ project SRooms example_rooms_response = Normal example_rooms
  /\ trace w2
     = trace w1 ++ [Emitted "update" []; Notified 1; Notified 2; Notified 1].
Proof.
  cbv zeta. split; [reflexivity|]. split; [reflexivity|].
  pose proof (completed_fetch_notifies_listeners_once SRooms
                example_listening_world example_rooms_response
                example_rooms eq_refl eq_refl) as H.
  cbv zeta in H. destruct H as (H & _). exact H.
Defined.


Lemma null_summary_breaks_the_flag_accessors_witness :
  let w2 := run [Respond 0 (Fulfilled JNull); Tick; Tick]
              (snd (_fetchSummary example_world)) in
  jobs example_world = []
  /\ (JNull = JNull \/ JNull = JUndefined)
  /\ getSummary (store w2) = JNull
  /\ isStateReady (store w2) STATE_KEY.Summary = JBool true
  /\ exists err, getGroupPublicity (store w2) = Throw err.
Proof.
  cbv zeta. split; [reflexivity|]. split; [left; reflexivity|].
  pose proof (null_summary_breaks_the_flag_accessors example_world JNull
                eq_refl (or_introl eq_refl)) as H.
  cbv zeta in H. destruct H as (H1 & H2 & H3 & _).
  split; [exact H1|]. split; [exact H2|exact H3].
Defined.

Lemma late_response_overwrites_newer_one_witness :
  let older := JObj [("chunk", JArr [])] in
  let w1 := snd (fetch SRooms (snd (fetch SRooms example_world))) in
  let w2 := run [Respond 3 (Fulfilled example_rooms_response); Tick; Tick]
              w1 in
  let w3 := run [Respond 0 (Fulfilled older); Tick; Tick] w2 in
  jobs example_world = []
  /\ project SRooms older = Normal (JArr [])
  /\ project SRooms example_rooms_response = Normal example_rooms
  /\ cached SRooms (store w3) = JArr [].
Proof.
  cbv zeta. split; [reflexivity|]. split; [reflexivity|].
  split; [reflexivity|].
  pose proof (late_response_overwrites_newer_one SRooms example_world
                (JObj [("chunk", JArr [])]) example_rooms_response
                (JArr []) example_rooms eq_refl eq_refl eq_refl) as H.
  cbv zeta in H. destruct H as (_ & _ & H). exact H.
Defined.

Lemma unregisterListener_removes_the_latest_registration_witness :
  (1%nat ∉ [2%nat])
  /\ listeners (store example_listening_world) = [1; 2] ++ 1 :: []
  /\ listeners (store (snd (unregisterListener 1 example_listening_world)))
     = [1; 2]%nat
  /\ (3%nat ∉ listeners (store example_listening_world))
  /\ listeners (store (snd (unregisterListener 3 example_listening_world)))
     = [1; 2; 1]%nat.
Proof.
  assert (H3 : 3%nat ∉ listeners (store example_listening_world)).
  { simpl. rewrite !not_elem_of_cons. repeat split; try lia.
    apply not_elem_of_nil. }
  pose proof (unregisterListener_removes_the_latest_registration 1
                example_listening_world [1; 2]%nat []) as H.
  pose proof (unregisterListener_removes_the_latest_registration 3
                example_listening_world [] []) as H'.
  cbv zeta in H, H'.
  destruct H as (_ & _ & _ & _ & _ & _ & _ & H).
  destruct H' as (_ & _ & _ & _ & _ & _ & H' & _).
  split; [rewrite not_elem_of_cons; split; [lia|apply not_elem_of_nil]|].
  split; [reflexivity|].
  split; [exact (H eq_refl (not_elem_of_nil _))|].
  split; [exact H3|exact (H' H3)].
Defined.

Lemma unregistering_does_not_cancel_the_fetches_witness :
  let w1 := run [Invoke (RegisterListener 7); Invoke (UnregisterListener 7)]
              example_world in
  let w2 := run [Respond 3 (Fulfilled example_rooms_response); Tick; Tick]
              w1 in
  jobs example_world = []
  /\ project SRooms example_rooms_response = Normal example_rooms
  /\ listeners (store w1) = []
  /\ cached SRooms (store w2) = example_rooms
  /\ trace w2 = trace w1 ++ [Emitted "update" []].
Proof.
  cbv zeta. split; [reflexivity|]. split; [reflexivity|].
  pose proof (unregistering_does_not_cancel_the_fetches 7 SRooms
                example_world example_rooms_response example_rooms
                eq_refl eq_refl) as H.
  cbv zeta in H. destruct H as (H1 & H2 & _ & H3).
  split; [exact H1|]. split; [exact H2|exact H3].
Defined.

Lemma every_request_is_about_the_group_of_the_store_witness :
  let w := run [Invoke (RegisterListener 0);
                Invoke (SetGroupPublicity (JBool true));
                Respond 12 (Fulfilled JUndefined); Tick; Tick]
             (new_world example_store) in
  constructor example_client (JStr "+test:example.org") = Normal example_store
  /\ groupId (store w) = JStr "+test:example.org"
  /\ Forall (fun r => request_gid r = JStr "+test:example.org")
       (requests (trace w)).
Proof.
  cbv zeta. split; [reflexivity|].
  pose proof (every_request_is_about_the_group_of_the_store example_client
                (JStr "+test:example.org") example_store
                [Invoke (RegisterListener 0);
                 Invoke (SetGroupPublicity (JBool true));
                 Respond 12 (Fulfilled JUndefined); Tick; Tick]
                eq_refl) as H.
  cbv zeta in H. destruct H as (H1 & _ & H2). split; assumption.
Defined.

Lemma a_completed_fetch_touches_only_its_slice_witness :
  let w := run [Invoke (RegisterListener 0);
                Respond 0 (Fulfilled example_summary)] example_world in
  completes SSummary Tick w = Some example_summary
  /\ SRooms <> SSummary
  /\ cached SSummary (store (step Tick w)) = example_summary
  /\ cached SRooms (store (step Tick w)) = JArr []
  /\ _ready (store (step Tick w)) !! state_key SRooms = None.
Proof.
  cbv zeta.
  assert (Hc : completes SSummary Tick
                 (run [Invoke (RegisterListener 0);
                       Respond 0 (Fulfilled example_summary)] example_world)
               = Some example_summary) by (vm_compute; reflexivity).
  split; [exact Hc|]. split; [discriminate|].
  pose proof (a_completed_fetch_touches_only_its_slice SSummary SRooms Tick
                _ example_summary Hc ltac:(discriminate)) as H.
  destruct H as (H1 & H2 & H3).
  split; [exact H1|]. split; [rewrite H2|rewrite H3]; vm_compute; reflexivity.
Defined.

Lemma records_are_projected_in_response_order_witness :
  let w2 := run [Respond 0 (Fulfilled example_rooms_response); Tick; Tick]
              (snd (fetch SRooms example_world)) in
  jobs example_world = []
  /\ SRooms <> SSummary
  /\ get_prop example_rooms_response "chunk"
     = Normal (JArr [JObj [("room_id", example_room_id)]])
  /\ projection SRooms (JObj [("room_id", example_room_id)])
     = Normal (JObj [("roomId", example_room_id)])
  /\ cached SRooms (store w2) = JArr [JObj [("roomId", example_room_id)]].
Proof.
  cbv zeta. split; [reflexivity|]. split; [discriminate|].
  split; [reflexivity|]. split; [reflexivity|].
  pose proof (records_are_projected_in_response_order SRooms example_world
                example_rooms_response
                [JObj [("room_id", example_room_id)]]
                [JObj [("roomId", example_room_id)]]
                eq_refl ltac:(discriminate) eq_refl
                ltac:(repeat constructor)) as H.
  cbv zeta in H. destruct H as (H & _). exact H.
Defined.


Lemma invited_fetch_rejected_without_a_reason_witness :
  let thrown := TypeError "Cannot read property 'httpStatus'" in
  let w1 := snd (_fetchMembers example_world) in
  let invited := run [Respond 3 (Rejected JNull); Tick; Tick] w1 in
  jobs example_world = []
  /\ get_prop JNull "httpStatus" = Throw thrown
  /\ trace invited = trace w1
  /\ store invited = store example_world
  /\ promise_state invited 5 = Some (Done (Rejected thrown)).
Proof.
  cbv zeta. split; [reflexivity|]. split; [reflexivity|].
  pose proof (invited_fetch_rejected_without_a_reason
                example_world JNull
                (TypeError "Cannot read property 'httpStatus'")
                eq_refl eq_refl) as H.
  cbv zeta in H. destruct H as (Ht & Hs & Hp & _).
  split; [exact Ht|]. split; [exact Hs|exact Hp].
Defined.
